(** * seesaw_cli: the interactive session of the Seesaw v2 command line

    A shallow embedding of [binaries/seesaw_cli/main.go].  Go strings are byte
    strings ([string]); Go [int] and [rune] values are integers ([Z]); every
    function of the file that touches the package-level variables, the
    terminal or the process is a computation in the monad [M] below, which
    threads the program state and records what becomes of the process. *)

From Stdlib Require Import ZArith List String Ascii Bool Lia DecimalString.
Import ListNotations.

Local Open Scope string_scope.
Local Open Scope list_scope.
Local Open Scope Z_scope.

(** ** The two functions of Go's package [strings] the file calls *)

Module strings.

(** [strings.Join(elems, sep)]: the elements, [sep] between neighbours. *)
Fixpoint Join (elems : list string) (sep : string) : string :=
  match elems with
  | [] => ""
  | [e] => e
  | e :: rest => (e ++ sep ++ Join rest sep)%string
  end.

(** White space as [unicode.IsSpace] has it, on the UTF-8 bytes of a string:
    one byte, two bytes or three bytes that encode a white-space
    character.  The characters are U+0009..U+000D, U+0020, U+0085, U+00A0,
    U+1680, U+2000..U+200A, U+2028, U+2029, U+202F, U+205F and U+3000. *)
Definition asciiSpace (c : ascii) : bool :=
  let n := N_of_ascii c in
  ((9 <=? n) && (n <=? 13) || (n =? 32))%N.

Definition space2 (a b : ascii) : bool :=
  let x := N_of_ascii a in
  let y := N_of_ascii b in
  ((x =? 194) && ((y =? 133) || (y =? 160)))%N.

Definition space3 (a b c : ascii) : bool :=
  let x := N_of_ascii a in
  let y := N_of_ascii b in
  let z := N_of_ascii c in
  ((x =? 225) && (y =? 154) && (z =? 128)
   || (x =? 226) && (y =? 128)
      && ((128 <=? z) && (z <=? 138) || (z =? 168) || (z =? 169) || (z =? 175))
   || (x =? 226) && (y =? 129) && (z =? 159)
   || (x =? 227) && (y =? 128) && (z =? 128))%N.

(** Leading white space removed.  [flip] tells that the bytes come in
    reverse order (the string is being trimmed from its end). *)
Fixpoint trimLeft (flip : bool) (s : string) : string :=
  match s with
  | EmptyString => EmptyString
  | String a r1 =>
      if asciiSpace a then trimLeft flip r1
      else
        match r1 with
        | EmptyString => s
        | String b r2 =>
            if (if flip then space2 b a else space2 a b) then trimLeft flip r2
            else
              match r2 with
              | EmptyString => s
              | String c r3 =>
                  if (if flip then space3 c b a else space3 a b c)
                  then trimLeft flip r3
                  else s
              end
        end
  end.

Fixpoint rev (s acc : string) : string :=
  match s with
  | EmptyString => acc
  | String a r => rev r (String a acc)
  end.

(** [strings.TrimSpace(s)]: leading and trailing white space removed. *)
Definition TrimSpace (s : string) : string :=
  rev (trimLeft true (rev (trimLeft false s) "")) "".

End strings.

(** ** What the file uses of package [cli] *)

Module cli.

(** [cli.Command]; the file reads only its field [Command], the name. *)
Record Command : Type := mkCommand { Name : string }.

(** The four results of [cli.FindCommand]: the command found (or nil), the
    candidate sub-commands (or nil), the chain of commands matched so far
    and the arguments left over. *)
Record Found : Type := mkFound {
  cmd : option Command;
  subcmds : option (list Command);
  chain : list Command;
  args : list string
}.

End cli.

(** ** [commandChain] *)

(** [len(s)] of a Go string, in bytes. *)
Definition len (s : string) : Z := Z.of_nat (String.length s).

(** commandChain builds a command chain from the given command slice. *)
Definition commandChain (chain : list cli.Command) (args : list string) : string :=
  let s := map cli.Name chain in
  let s := s ++ args in
  let s :=
    if ((0 <? Z.of_nat (List.length s)) && (Z.of_nat (List.length args) =? 0))%bool
    then s ++ [""] else s in
  strings.Join s " ".

(** ** The terminal, the process and its environment *)

Module syscall.

(** [syscall.Termios], the configuration of a terminal (Linux layout). *)
Record Termios : Type := mkTermios {
  Iflag : Z; Oflag : Z; Cflag : Z; Lflag : Z;
  Line : Z; Cc : list Z; Ispeed : Z; Ospeed : Z
}.

Inductive Signal : Type := SIGINT | SIGQUIT | SIGTERM | SIGTSTP.

Definition Signal_eqb (a b : Signal) : bool :=
  match a, b with
  | SIGINT, SIGINT | SIGQUIT, SIGQUIT | SIGTERM, SIGTERM | SIGTSTP, SIGTSTP => true
  | _, _ => false
  end.

End syscall.
Import syscall.

(** A Go [error] is kept as its text; [None] is the nil error. *)
Definition error : Type := option string.

Inductive result (A : Type) : Type :=
| Ok (a : A)
| Err (e : string).
Arguments Ok {A} a.
Arguments Err {A} e.

(** What does not change during a run: the command tree behind
    [cli.FindCommand], what [terminal.MakeRaw] turns a configuration into,
    and the constant [seesaw.HAMaster]. *)
Record Env : Type := mkEnv {
  FindCommand : string -> cli.Found;
  makeRaw : Termios -> Termios;
  HAMaster : Z
}.

(** The goroutines the file starts. *)
Inductive Goroutine : Type :=
| GoResume        (* go resume() *)
| GoSignalWait.   (* go func() { <-sigc; exit() }() *)

(** Everything the process does to the world, in the order it does it. *)
Inductive Event : Type :=
| EvNewSeesawIPC
| EvDial (socket : string)
| EvClose
| EvClusterStatus
| EvUserCurrent
| EvHAStatus
| EvNotify (sigs : list Signal)      (* signal.Notify(sigc, sigs...) *)
| EvGo (g : Goroutine)
| EvMakeRaw (ok : bool)              (* terminal.MakeRaw(syscall.Stdin) *)
| EvRestore (c : Termios)            (* terminal.Restore(syscall.Stdin, c) *)
| EvNewTerminal (p : string)         (* terminal.NewTerminal(os.Stdin, p) *)
| EvReadLine                         (* term.ReadLine() is called *)
| EvTermWrite (b : string)           (* term.Write(b) *)
| EvStdout (b : string)
| EvStderr (b : string)
| EvSleep (seconds : Z)
| EvKill (sig : Signal)              (* syscall.Kill(os.Getpid(), sig) *)
| EvFindCommand (q : string)         (* cli.FindCommand(q) *)
| EvExecute (line : string).         (* seesawCLI.Execute(line) *)

(** The package-level variables, the terminal device and the goroutines. *)
Record State : Type := mkState {
  tty : Termios;                    (* the configuration of the terminal on stdin *)
  oldTermState : option Termios;    (* *terminal.State; nil is None *)
  prompt : string;
  term : option string;             (* *terminal.Terminal: the prompt it was built with *)
  notified : list Signal;           (* signals relayed to sigc *)
  listening : bool;                 (* the goroutine waiting on sigc runs *)
  resumes : nat;                    (* resume goroutines started, not yet woken *)
  trace : list Event
}.

(** What becomes of a computation. *)
Inductive Outcome (A : Type) : Type :=
| Ret (a : A) (s : State)             (* it returns *)
| Exited (code : Z) (s : State)       (* os.Exit(code) *)
| Panicked (s : State)                (* a run-time panic *)
| Killed (sig : Signal) (s : State)   (* ended by a signal nobody handles *)
| Blocked (s : State).                (* waits for input that never comes *)
Arguments Ret {A} a s.
Arguments Exited {A} code s.
Arguments Panicked {A} s.
Arguments Killed {A} sig s.
Arguments Blocked {A} s.

Definition M (A : Type) : Type := State -> Outcome A.

Definition ret {A} (a : A) : M A := fun s => Ret a s.

Definition bind {A B} (m : M A) (k : A -> M B) : M B :=
  fun s =>
    match m s with
    | Ret a s' => k a s'
    | Exited c s' => Exited c s'
    | Panicked s' => Panicked s'
    | Killed g s' => Killed g s'
    | Blocked s' => Blocked s'
    end.

Notation "x <- m ;; k" := (bind m (fun x => k))
  (at level 61, m at next level, right associativity).
Notation "m ;; k" := (bind m (fun _ => k))
  (at level 61, right associativity).

Definition finalState {A} (o : Outcome A) : State :=
  match o with
  | Ret _ s | Exited _ s | Panicked s | Killed _ s | Blocked s => s
  end.

(** The exit status of the process, when it ends: 0 when [main] returns, the
    argument of [os.Exit], 2 after a panic. *)
Definition exitStatus {A} (o : Outcome A) : option Z :=
  match o with
  | Ret _ _ => Some 0
  | Exited c _ => Some c
  | Panicked _ => Some 2
  | Killed _ _ | Blocked _ => None
  end.

Definition nl : string := String (ascii_of_nat 10) "".

Definition emit (e : Event) : M unit :=
  fun s => Ret tt (mkState (tty s) (oldTermState s) (prompt s) (term s)
                           (notified s) (listening s) (resumes s) (trace s ++ [e])).

Definition get : M State := fun s => Ret s s.

Definition when (b : bool) (m : M unit) : M unit := if b then m else ret tt.

Definition isNil {A} (p : option A) : bool :=
  match p with None => true | Some _ => false end.

Fixpoint forEach {A} (l : list A) (body : A -> M unit) : M unit :=
  match l with
  | [] => ret tt
  | a :: rest => body a ;; forEach rest body
  end.

(** *** What the run meets: flags, answers of the engine, keys, signals *)

(** What [seesawCLI.Execute] does with a line: it succeeds, it fails, or the
    command is the one that calls the exit function the CLI was built with
    ([cli.NewSeesawCLI(seesawConn, exit)]). *)
Inductive Executed : Type :=
| Done
| Failed (e : string)
| Quit.

(** What happens while [term.ReadLine] waits for the end of a line. *)
Inductive Async : Type :=
| Key (line : string) (pos : Z) (key : Z)  (* the editor calls AutoCompleteCallback *)
| Sig (sig : Signal)                       (* a signal is delivered to the process *)
| Wake (raw : error).                      (* a resume goroutine wakes; what its MakeRaw answers *)

(** How a call of [term.ReadLine] ends. *)
Inductive ReadResult : Type :=
| Entered (cmdline : string) (ex : Executed)  (* a line, and what Execute does if it gets it *)
| ReadErr (e : string)                     (* an error, io.EOF for one *)
| Waiting.                                 (* no further input ever comes *)

Record Read : Type := mkRead { during : list Async; ending : ReadResult }.

Record ClusterStatus : Type := mkClusterStatus { Version : Z; Site : string }.

Record World : Type := mkWorld {
  command : string;                    (* flag -c *)
  engineSocket : string;               (* flag -engine *)
  termios : Termios;                   (* the terminal's configuration at start *)
  newSeesawIPC : error;
  dial : error;
  oneShot : Executed;                  (* what Execute does with the -c command *)
  clusterStatus : result ClusterStatus;
  userCurrent : result string;         (* u.Username *)
  haStatus : result Z;                 (* ha.State *)
  rawAtStart : error;                  (* what the first MakeRaw answers *)
  reads : list Read
}.

Definition initial (w : World) : State :=
  mkState (termios w) None "" None [] false 0%nat [].

(** *** The calls into the standard library and the other packages *)

Definition os_Exit {A} (code : Z) : M A := fun s => Exited code s.

Definition panic {A} : M A := fun s => Panicked s.

Definition fmt_Print (b : string) : M unit := emit (EvStdout b).

Definition fmt_Eprint (b : string) : M unit := emit (EvStderr b).

(** [terminal.Restore(syscall.Stdin, c)]; the file drops its error. *)
Definition terminal_Restore (c : Termios) : M unit :=
  fun s => Ret tt (mkState c (oldTermState s) (prompt s) (term s)
                           (notified s) (listening s) (resumes s)
                           (trace s ++ [EvRestore c])).

Definition set_oldTermState (o : option Termios) : M unit :=
  fun s => Ret tt (mkState (tty s) o (prompt s) (term s)
                           (notified s) (listening s) (resumes s) (trace s)).

Definition set_prompt (p : string) : M unit :=
  fun s => Ret tt (mkState (tty s) (oldTermState s) p (term s)
                           (notified s) (listening s) (resumes s) (trace s)).

(** [term = terminal.NewTerminal(os.Stdin, prompt)] and the callback set. *)
Definition terminal_NewTerminal (p : string) : M unit :=
  fun s => Ret tt (mkState (tty s) (oldTermState s) (prompt s) (Some p)
                           (notified s) (listening s) (resumes s)
                           (trace s ++ [EvNewTerminal p])).

Definition signal_Notify (sigs : list Signal) : M unit :=
  fun s => Ret tt (mkState (tty s) (oldTermState s) (prompt s) (term s)
                           (notified s ++ sigs) (listening s) (resumes s)
                           (trace s ++ [EvNotify sigs])).

Definition go (g : Goroutine) : M unit :=
  fun s => Ret tt (mkState (tty s) (oldTermState s) (prompt s) (term s)
                           (notified s)
                           (match g with GoSignalWait => true | GoResume => listening s end)
                           (match g with GoResume => S (resumes s) | GoSignalWait => resumes s end)
                           (trace s ++ [EvGo g])).

Definition woken : M unit :=
  fun s => Ret tt (mkState (tty s) (oldTermState s) (prompt s) (term s)
                           (notified s) (listening s) (pred (resumes s)) (trace s)).

Definition term_Write (b : string) : M unit := emit (EvTermWrite b).

(** [s[0:pos]]; out of range is a run-time panic. *)
Definition slice0 (s : string) (pos : Z) : M string :=
  if ((0 <=? pos) && (pos <=? len s))%bool
  then ret (substring 0 (Z.to_nat pos) s)
  else panic.

(** The verb %d. *)
Definition itoa (n : Z) : string := NilZero.string_of_int (Z.to_int n).

Section Program.

Variable E : Env.

(** [oldTermState, err = terminal.MakeRaw(syscall.Stdin)]: when it
    succeeds the configuration in force is returned and the terminal is
    raw; when it fails nil is returned and the terminal is as it was. *)
Definition terminal_MakeRaw (answer : error) : M error :=
  fun s =>
    match answer with
    | None =>
        Ret None (mkState (makeRaw E (tty s)) (Some (tty s)) (prompt s) (term s)
                          (notified s) (listening s) (resumes s)
                          (trace s ++ [EvMakeRaw true]))
    | Some e =>
        Ret (Some e) (mkState (tty s) None (prompt s) (term s)
                              (notified s) (listening s) (resumes s)
                              (trace s ++ [EvMakeRaw false]))
    end.

Definition cli_FindCommand (q : string) : M cli.Found :=
  emit (EvFindCommand q) ;; ret (FindCommand E q).

Definition exit {A} : M A :=
  s <- get ;;
  match oldTermState s with
  | Some old => terminal_Restore old
  | None => ret tt
  end ;;
  fmt_Print nl ;;
  os_Exit 0.

(** [fatalf(format, a...)], with [msg] the formatted text. *)
Definition fatalf {A} (msg : string) : M A :=
  s <- get ;;
  match oldTermState s with
  | Some old => terminal_Restore old
  | None => ret tt
  end ;;
  fmt_Eprint msg ;;
  fmt_Eprint nl ;;
  os_Exit 1.

Definition suspend : M unit :=
  s <- get ;;
  match oldTermState s with
  | Some old => terminal_Restore old
  | None => ret tt
  end ;;
  go GoResume ;;
  emit (EvKill SIGTSTP).

Definition terminalInit (answer : error) : M unit :=
  err <- terminal_MakeRaw answer ;;
  match err with
  | Some e => fatalf ("Failed to get raw terminal: " ++ e)
  | None => ret tt
  end ;;
  s <- get ;;
  terminal_NewTerminal (prompt s).

Definition resume (answer : error) : M unit :=
  emit (EvSleep 1) ;;
  fmt_Print ("resuming..." ++ nl) ;;
  terminalInit answer.

(** autoComplete attempts to complete the user's input when certain
    characters are typed. *)
Definition autoComplete (line : string) (pos : Z) (key : Z) : M (string * Z * bool) :=
  if key =? 0x01 then ret (line, 0, true)
  else if key =? 0x03 then exit
  else if key =? 0x05 then ret (line, len line, true)
  else if key =? 0x09 then
    f <- cli_FindCommand line ;;
    let line := commandChain (cli.chain f) (cli.args f) in
    ret (line, len line, true)
  else if key =? 0x15 then ret ("", 0, true)
  else if key =? 0x1a then suspend ;; ret ("", 0, false)
  else if key =? 63 then
    q <- slice0 line pos ;;
    f <- cli_FindCommand q ;;
    s <- get ;;
    when (isNil (cli.cmd f))
      (term_Write (prompt s) ;; term_Write line ;; term_Write ("?" ++ nl)) ;;
    match cli.subcmds f with
    | Some cs =>
        forEach cs (fun c => term_Write (" " ++ cli.Name c) ;; term_Write nl)
    | None =>
        when (isNil (cli.cmd f)) (term_Write ("Unknown command." ++ nl))
    end ;;
    let line := commandChain (cli.chain f) (cli.args f) in
    ret (line, len line, true)
  else ret ("", 0, false).

(** *** The interactive loop *)

(** A signal reaches the process.  One that was given to [signal.Notify]
    goes to the channel, where the waiting goroutine takes it and calls
    [exit]; any other has its default effect: SIGTSTP stops the process
    until it is continued, the others end it. *)
Definition deliver (sig : Signal) : M unit :=
  s <- get ;;
  if existsb (Signal_eqb sig) (notified s) then
    (if listening s then exit else ret tt)
  else
    match sig with
    | SIGTSTP => ret tt
    | _ => fun s => Killed sig s
    end.

Definition async (a : Async) : M unit :=
  match a with
  | Key line pos key => autoComplete line pos key ;; ret tt
  | Sig sig => deliver sig
  | Wake answer =>
      s <- get ;;
      match resumes s with
      | O => ret tt
      | S _ => woken ;; resume answer
      end
  end.

(** [term.ReadLine()]: the editor runs, calling back for the keys typed,
    until the line ends. *)
Definition term_ReadLine (r : Read) : M ReadResult :=
  emit EvReadLine ;;
  forEach (during r) async ;;
  ret (ending r).

Definition seesawCLI_Execute (line : string) (ex : Executed) : M error :=
  emit (EvExecute line) ;;
  match ex with
  | Done => ret None
  | Failed e => ret (Some e)
  | Quit => exit
  end.

(** The [for] loop of [interactive]. *)
Fixpoint readLoop (rs : list Read) : M unit :=
  match rs with
  | [] => emit EvReadLine ;; fun s => Blocked s
  | r :: rest =>
      got <- term_ReadLine r ;;
      match got with
      | Waiting => fun s => Blocked s
      | ReadErr _ => ret tt
      | Entered cmdline ex =>
          let cmdline := strings.TrimSpace cmdline in
          if String.eqb cmdline "" then readLoop rest
          else
            err <- seesawCLI_Execute cmdline ex ;;
            match err with
            | Some e => fmt_Print (e ++ nl)
            | None => ret tt
            end ;;
            readLoop rest
      end
  end.

Definition orFatal {A} (what : string) (r : result A) : M A :=
  match r with
  | Ok a => ret a
  | Err e => fatalf (what ++ e)
  end.

(** interactive invokes the interactive CLI interface. *)
Definition interactive (w : World) : M unit :=
  emit EvClusterStatus ;;
  status <- orFatal "Failed to get cluster status: " (clusterStatus w) ;;
  fmt_Print (nl ++ "Seesaw CLI - Engine version " ++ itoa (Version status) ++ nl ++ nl) ;;
  emit EvUserCurrent ;;
  u <- orFatal "Failed to get current user: " (userCurrent w) ;;
  emit EvHAStatus ;;
  ha <- orFatal "Failed to get HA status: " (haStatus w) ;;
  when (negb (ha =? HAMaster E))
    (fmt_Print ("WARNING: This seesaw is not currently the master." ++ nl)) ;;
  set_prompt (u ++ "@" ++ Site status ++ "> ") ;;
  signal_Notify [SIGINT; SIGQUIT; SIGTERM] ;;
  go GoSignalWait ;;
  terminalInit (rawAtStart w) ;;
  readLoop (reads w).

(** [main], from the point where [flag.Parse] has returned: the values of
    the flags are [command w] and [engineSocket w].  The deferred
    [seesawConn.Close] is the last event of a return; [os.Exit] runs no
    deferred call. *)
Definition main (w : World) : M unit :=
  emit EvNewSeesawIPC ;;
  match newSeesawIPC w with
  | Some e => fatalf ("Failed to connect to engine: " ++ e)
  | None => ret tt
  end ;;
  emit (EvDial (engineSocket w)) ;;
  match dial w with
  | Some e => fatalf ("Failed to connect to engine: " ++ e)
  | None => ret tt
  end ;;
  when (String.eqb (command w) "") (interactive w ;; exit) ;;
  err <- seesawCLI_Execute (command w) (oneShot w) ;;
  match err with
  | Some e => fatalf e
  | None => ret tt
  end ;;
  emit EvClose.

(** The whole process, from its start. *)
Definition run (w : World) : Outcome unit := main w (initial w).

End Program.

(** *** A small environment to run the program in *)

Module Demo.

Definition show := cli.mkCommand "show".
Definition set := cli.mkCommand "set".
Definition status := cli.mkCommand "status".

(** A command tree with [show status] and [set], as [cli.FindCommand]
    answers for the few lines used below. *)
Definition find (q : string) : cli.Found :=
  if String.eqb q "" then cli.mkFound None (Some [set; show]) [] []
  else if String.eqb q "s" then cli.mkFound None (Some [set; show]) [] ["s"]
  else if String.eqb q "s x" then cli.mkFound None (Some [set; show]) [] ["s"; "x"]
  else if String.eqb q "sh" then cli.mkFound None (Some [status]) [show] []
  else if String.eqb q "show" then cli.mkFound None (Some [status]) [show] []
  else if String.eqb q "sh st" then cli.mkFound (Some status) None [show; status] []
  else if String.eqb q "show status" then cli.mkFound (Some status) None [show; status] []
  else cli.mkFound None None [] [q].

(** ICANON, ECHO and ISIG are bits 1, 3 and 0 of [Lflag]; raw mode clears them. *)
Definition raw (c : Termios) : Termios :=
  mkTermios (Iflag c) (Oflag c) (Cflag c) (Z.land (Lflag c) (Z.lnot 11))
            (Line c) (Cc c) (Ispeed c) (Ospeed c).

Definition env : Env := mkEnv find raw 4.

Definition cooked : Termios := mkTermios 0x500 0x5 0xbf 0x8a3b 0 [] 15 15.

Definition world (cmd : string) (rs : list Read) : World :=
  mkWorld cmd "/var/run/seesaw/engine/engine.sock" cooked None None Done
          (Ok (mkClusterStatus 2 "lab")) (Ok "admin") (Ok 4) None rs.

(** A run whose standard input is no terminal. *)
Definition worldNoTerminal : World :=
  mkWorld "" "/var/run/seesaw/engine/engine.sock" cooked None None Done
          (Ok (mkClusterStatus 2 "lab")) (Ok "admin") (Ok 4)
          (Some "inappropriate ioctl for device") [].

(** Ctrl-Z typed twice before the first resume has run, then both resume
    goroutines wake. *)
Definition suspendedTwice : list Async :=
  [Key "" 0 0x1a; Key "" 0 0x1a; Wake None; Wake None].

(** The session while a line is being edited, raw mode entered. *)
Definition editing : State :=
  mkState (raw cooked) (Some cooked) "admin@lab> " (Some "admin@lab> ")
          [SIGINT; SIGQUIT; SIGTERM] true 0%nat [].

End Demo.

(** *** What can be seen of a run *)

(** The state [s] once the events [evs] have been added to its trace. *)
Definition after (s : State) (evs : list Event) : State :=
  mkState (tty s) (oldTermState s) (prompt s) (term s)
          (notified s) (listening s) (resumes s) (trace s ++ evs).

(** The lines given to [seesawCLI.Execute], in order. *)
Fixpoint executed (t : list Event) : list string :=
  match t with
  | [] => []
  | EvExecute l :: rest => l :: executed rest
  | _ :: rest => executed rest
  end.

(** The bytes written to standard output and to the error stream. *)
Fixpoint stdout (t : list Event) : string :=
  match t with
  | [] => ""
  | EvStdout b :: rest => (b ++ stdout rest)%string
  | _ :: rest => stdout rest
  end.

Fixpoint stderr (t : list Event) : string :=
  match t with
  | [] => ""
  | EvStderr b :: rest => (b ++ stderr rest)%string
  | _ :: rest => stderr rest
  end.

(** What was written through the line editor, one entry for each write. *)
Fixpoint written (t : list Event) : list string :=
  match t with
  | [] => []
  | EvTermWrite b :: rest => b :: written rest
  | _ :: rest => written rest
  end.

(** [strings.HasSuffix(s, suffix)]. *)
Definition HasSuffix (s suffix : string) : bool :=
  let n := String.length s in
  let k := String.length suffix in
  (k <=? n)%nat && String.eqb (substring (n - k) k s) suffix.

(** One line of the candidate list that the help key prints. *)
Definition candidateLines (cs : list cli.Command) : list Event :=
  flat_map (fun c => [EvTermWrite (" " ++ cli.Name c); EvTermWrite nl]) cs.

(** The state once [if oldTermState != nil { terminal.Restore(...) }] ran. *)
Definition restoreSaved (s : State) : State :=
  match oldTermState s with
  | Some old =>
      mkState old (oldTermState s) (prompt s) (term s)
              (notified s) (listening s) (resumes s) (trace s ++ [EvRestore old])
  | None => s
  end.

(** The state with one more resume goroutine started. *)
Definition resumeStarted (s : State) : State :=
  mkState (tty s) (oldTermState s) (prompt s) (term s)
          (notified s) (listening s) (S (resumes s)) (trace s ++ [EvGo GoResume]).

(** What the specification says of the expand key: the text left of the
    cursor is resolved and the line becomes its chain-join, the cursor at
    its end, nothing printed. *)
Definition spec_expand (E : Env) (line : string) (pos : Z) (s : State)
  : Outcome (string * Z * bool) :=
  let q := substring 0 (Z.to_nat pos) line in
  let f := FindCommand E q in
  let line' := commandChain (cli.chain f) (cli.args f) in
  Ret (line', len line', true) (after s [EvFindCommand q]).

(** The banner that [interactive] prints first. *)
Definition banner (version : Z) : string :=
  (nl ++ "Seesaw CLI - Engine version " ++ itoa version ++ nl ++ nl)%string.

Definition notMaster : string :=
  ("WARNING: This seesaw is not currently the master." ++ nl)%string.

(** The state in which [interactive] calls [terminalInit], when nothing has
    failed before. *)
Definition beforeRaw (E : Env) (w : World) (st : ClusterStatus) (u : string) (ha : Z)
  : State :=
  mkState (termios w) None (u ++ "@" ++ Site st ++ "> ") None
          [SIGINT; SIGQUIT; SIGTERM] true 0%nat
          ([EvNewSeesawIPC; EvDial (engineSocket w); EvClusterStatus;
            EvStdout (banner (Version st)); EvUserCurrent; EvHAStatus]
           ++ (if ha =? HAMaster E then [] else [EvStdout notMaster])
           ++ [EvNotify [SIGINT; SIGQUIT; SIGTERM]; EvGo GoSignalWait]).

(** *** Invariants of a run *)

(** The signals [interactive] asks to be told of. *)
Definition terminating : list Signal := [SIGINT; SIGQUIT; SIGTERM].

Definition handled (sig : Signal) (s : State) : bool :=
  existsb (Signal_eqb sig) (notified s).

(** The three signals go to the channel and the goroutine waits on it. *)
Definition armed (s : State) : Prop :=
  listening s = true
  /\ handled SIGINT s = true /\ handled SIGQUIT s = true /\ handled SIGTERM s = true.

(** Events that change neither the terminal nor the goroutines and are no
    call of Execute. *)
Definition plain (e : Event) : Prop :=
  match e with
  | EvExecute _ | EvRestore _ | EvMakeRaw _ | EvNotify _ | EvGo _
  | EvNewTerminal _ => False
  | _ => True
  end.

(** [sound I P m Q]: started in a state where [P] holds, [m] returns a
    value and a state that [Q] relates, or ends otherwise in a state where
    [I] holds. *)
Definition sound (I : State -> Prop) {A} (P : State -> Prop) (m : M A)
    (Q : A -> State -> Prop) : Prop :=
  forall s, P s ->
    match m s with
    | Ret a s' => Q a s'
    | o => I (finalState o)
    end.

(** In the trace [t] every event of the kind [X] has the event [y] before it. *)
Definition eachPreceded (X : Event -> Prop) (y : Event) (t : list Event) : Prop :=
  forall pre x post, t = pre ++ x :: post -> X x -> In y pre.

Definition isMakeRaw (e : Event) : Prop := exists ok, e = EvMakeRaw ok.

Definition isRestore (e : Event) : Prop := exists c, e = EvRestore c.

(** A line Execute may be given in the interactive loop of the world [w]:
    the trimmed form, not empty, of a line that ReadLine returned. *)
Definition dispatched (w : World) (l : string) : Prop :=
  l <> "" /\
  exists r cmdline ex,
    In r (reads w) /\ ending r = Entered cmdline ex /\ l = strings.TrimSpace cmdline.

(** Every call of Execute so far was on such a line. *)
Definition onlyDispatched (w : World) (s : State) : Prop :=
  forall l, In (EvExecute l) (trace s) -> dispatched w l.

(** A string of spaces, tabs, line feeds and the like. *)
Fixpoint blank (s : string) : bool :=
  match s with
  | EmptyString => true
  | String a r => strings.asciiSpace a && blank r
  end.

(** A session with a blank line, a command and the end of the input. *)
Definition Demo_reads : list Read :=
  [mkRead [] (Entered "   " Done);
   mkRead [] (Entered "  show status " Done);
   mkRead [] (ReadErr "EOF")].

(** The listener comes first: in the trace every MakeRaw has the Notify of
    the three signals and the start of the waiting goroutine before it, and
    once a MakeRaw is in the trace the listener is in place. *)
Definition listenerFirst (s : State) : Prop :=
  eachPreceded isMakeRaw (EvNotify terminating) (trace s)
  /\ eachPreceded isMakeRaw (EvGo GoSignalWait) (trace s)
  /\ (listening s = true -> In (EvGo GoSignalWait) (trace s))
  /\ (handled SIGINT s = true -> In (EvNotify terminating) (trace s))
  /\ ((exists ok, In (EvMakeRaw ok) (trace s)) -> armed s).

(** A configuration is saved only after a MakeRaw that succeeded, and every
    Restore in the trace has such a MakeRaw before it. *)
Definition restoreGuarded (s : State) : Prop :=
  (forall c, oldTermState s = Some c -> In (EvMakeRaw true) (trace s))
  /\ eachPreceded isRestore (EvMakeRaw true) (trace s).

(** An interactive session that goes as far as its first ReadLine. *)
Definition Demo_started : list Event :=
  [EvNewSeesawIPC; EvDial "/var/run/seesaw/engine/engine.sock"; EvClusterStatus;
   EvStdout (banner 2); EvUserCurrent; EvHAStatus;
   EvNotify [SIGINT; SIGQUIT; SIGTERM]; EvGo GoSignalWait].

(** Ctrl-Z twice, both resumes, and then one of the ways out. *)
Definition Demo_twice (last : list Async) (r : ReadResult) : World :=
  Demo.world "" [mkRead (Demo.suspendedTwice ++ last) r].

(** *** Sessions that are never suspended twice at once *)

(** The number of resume goroutines that wait, after the event [a]. *)
Definition pendingStep (n : nat) (a : Async) : nat :=
  match a with
  | Key _ _ key => if key =? 0x1a then S n else n
  | Wake _ => pred n
  | Sig _ => n
  end.

(** Ctrl-Z is typed only when no resume goroutine waits. *)
Definition unnested (n : nat) (a : Async) : bool :=
  match a with
  | Key _ _ key => if key =? 0x1a then Nat.eqb n 0 else true
  | _ => true
  end.

Fixpoint serialAsyncs (n : nat) (evs : list Async) : bool :=
  match evs with
  | [] => true
  | a :: rest => unnested n a && serialAsyncs (pendingStep n a) rest
  end.

Fixpoint serialReads (n : nat) (rs : list Read) : bool :=
  match rs with
  | [] => true
  | r :: rest =>
      serialAsyncs n (during r)
      && serialReads (fold_left pendingStep (during r) n) rest
  end.

(** A session that has entered raw mode from the configuration [c0], with
    [n] resume goroutines waiting: the configuration saved is [c0], and the
    terminal is raw when none waits and back to [c0] when one does. *)
Definition settled (E : Env) (c0 : Termios) (n : nat) (s : State) : Prop :=
  resumes s = n /\ oldTermState s = Some c0 /\
  match n with
  | O => tty s = makeRaw E c0
  | S O => tty s = c0
  | _ => False
  end.

(** The outcomes that matter here: a return in a settled state, or an exit
    with the terminal as it was at the start. *)
Definition settles (E : Env) (c0 : Termios) {A} (n : nat) (o : Outcome A) : Prop :=
  match o with
  | Ret _ s' => settled E c0 n s'
  | Exited _ s' => tty s' = c0
  | _ => True
  end.

Definition settlesAny (E : Env) (c0 : Termios) {A} (o : Outcome A) : Prop :=
  match o with
  | Ret _ s' => exists n, settled E c0 n s'
  | Exited _ s' => tty s' = c0
  | _ => True
  end.

(** The process, if it exits, leaves the terminal configured as [c0]. *)
Definition exitsWith (c0 : Termios) {A} (o : Outcome A) : Prop :=
  match o with
  | Exited _ s' => tty s' = c0
  | _ => True
  end.

(** Ctrl-Z, the resume, Ctrl-Z again, the resume, the end of the input. *)
Definition Demo_serial : list Read :=
  [mkRead [Key "" 0 0x1a; Wake None; Key "" 0 0x1a; Wake None] (ReadErr "EOF")].

(** *** The start of the process, case by case *)

(** The first thing that fails when an interactive session starts, as the
    diagnostic [interactive] gives for it: the cluster status is asked
    first, then the user, then the HA status. *)
Definition startupError (w : World) : option string :=
  match clusterStatus w with
  | Err e => Some ("Failed to get cluster status: " ++ e)%string
  | Ok _ =>
      match userCurrent w with
      | Err e => Some ("Failed to get current user: " ++ e)%string
      | Ok _ =>
          match haStatus w with
          | Err e => Some ("Failed to get HA status: " ++ e)%string
          | Ok _ => None
          end
      end
  end.

(** The error of the connection to the engine, if it fails. *)
Definition connectError (w : World) : option string :=
  match newSeesawIPC w with
  | Some e => Some e
  | None => dial w
  end.

(** A run that cannot reach the engine, and one that cannot tell its user. *)
Definition Demo_noEngine : World :=
  mkWorld "show status" "/var/run/seesaw/engine/engine.sock" Demo.cooked
          None (Some "connection refused") Done
          (Ok (mkClusterStatus 2 "lab")) (Ok "admin") (Ok 4) None [].

Definition Demo_noUser : World :=
  mkWorld "" "/var/run/seesaw/engine/engine.sock" Demo.cooked None None Done
          (Ok (mkClusterStatus 2 "lab")) (Err "unknown userid 1000") (Ok 4) None [].

(** *** Sessions of plain lines *)

(** The calls of ReadLine of a session where lines are typed and nothing
    else happens: no special key, no signal. *)
Definition typed (ls : list (string * Executed)) : list Read :=
  map (fun p => mkRead [] (Entered (fst p) (snd p))) ls.

(** The lines of [ls], trimmed, that are not empty. *)
Definition dispatchedLines (ls : list (string * Executed)) : list string :=
  filter (fun l => negb (String.eqb l ""))
         (map (fun p => strings.TrimSpace (fst p)) ls).

(** The errors of the commands of [ls] that fail, a line each. *)
Fixpoint failures (ls : list (string * Executed)) : string :=
  match ls with
  | [] => ""
  | (l, ex) :: rest =>
      ((if String.eqb (strings.TrimSpace l) "" then ""
        else match ex with Failed e => e ++ nl | _ => "" end)
       ++ failures rest)%string
  end.

(** The events of the loop for the lines [ls]. *)
Fixpoint loopEvents (ls : list (string * Executed)) : list Event :=
  match ls with
  | [] => []
  | (l, ex) :: rest =>
      EvReadLine
      :: (if String.eqb (strings.TrimSpace l) "" then []
          else EvExecute (strings.TrimSpace l)
               :: match ex with Failed e => [EvStdout (e ++ nl)] | _ => [] end)
      ++ loopEvents rest
  end.

Definition Demo_lines : list (string * Executed) :=
  [("  show status ", Done); ("   ", Done); ("bogus", Failed "Unknown command.");
   ("show", Done)].

(** *** What a session keeps *)

(** The events of the interactive loop that change nothing of the terminal,
    the goroutines or the error stream. *)
Definition loopEvent (e : Event) : Prop :=
  match e with
  | EvReadLine | EvFindCommand _ | EvTermWrite _ | EvSleep _ | EvStdout _
  | EvExecute _ | EvKill _ => True
  | _ => False
  end.

(** [meets G X o]: the outcome [o] is an exit with a status and in a state
    that [X] relates, or anything else in a state where [G] holds. *)
Definition meets (G : State -> Prop) (X : Z -> State -> Prop) {A} (o : Outcome A)
  : Prop :=
  match o with
  | Exited c s => X c s
  | Ret _ s | Panicked s | Killed _ s | Blocked s => G s
  end.

Definition holds (G : State -> Prop) (X : Z -> State -> Prop) {A} (m : M A) : Prop :=
  forall s, G s -> meets G X (m s).

(** The session once the start has succeeded: raw mode, the loop, the exit. *)
Definition session (E : Env) (answer : error) (rs : list Read) : M unit :=
  terminalInit E answer ;; readLoop E rs ;; exit.


(** The prompt is [p], and so is the prompt of every line editor built. *)
Definition promptIs (p : string) (s : State) : Prop :=
  prompt s = p
  /\ (forall q, term s = Some q -> q = p)
  /\ (forall q, In (EvNewTerminal q) (trace s) -> q = p).

(** *** What the terminal shows *)

(** The bytes of a sequence of writes, as the terminal receives them. *)
Fixpoint text (chunks : list string) : string :=
  match chunks with
  | [] => ""
  | c :: rest => (c ++ text rest)%string
  end.

(** The lines of a text: what stands between two line feeds, before the
    first and after the last. *)
Fixpoint lines (t : string) : list string :=
  match t with
  | EmptyString => [""]
  | String c rest =>
      if Ascii.eqb c "010"%char then "" :: lines rest
      else
        match lines rest with
        | [] => [String c ""]
        | l :: ls => String c l :: ls
        end
  end.

(** *** Sessions in which no two goroutines touch the terminal at once

    [suspend] and [exit] run on the goroutine of the caller, [resume] on a
    goroutine of its own, and nothing orders them.  A session is calm when
    no terminating signal arrives, and when Ctrl-Z, Ctrl-C, the quit command
    and the end of the input are each handled while no resume goroutine
    waits: then the calls of [terminal.MakeRaw] and [terminal.Restore]
    have one order only. *)
Definition quiet (n : nat) (a : Async) : bool :=
  match a with
  | Key _ _ key =>
      if (key =? 0x1a) || (key =? 0x03) then Nat.eqb n 0 else true
  | Sig _ => false
  | Wake _ => true
  end.

Fixpoint calmAsyncs (n : nat) (evs : list Async) : bool :=
  match evs with
  | [] => true
  | a :: rest => quiet n a && calmAsyncs (pendingStep n a) rest
  end.

Definition calmEnding (n : nat) (r : ReadResult) : bool :=
  match r with
  | Entered _ Quit => Nat.eqb n 0
  | ReadErr _ => Nat.eqb n 0
  | Entered _ _ | Waiting => true
  end.

Fixpoint calmReads (n : nat) (rs : list Read) : bool :=
  match rs with
  | [] => true
  | r :: rest =>
      calmAsyncs n (during r)
      && calmEnding (fold_left pendingStep (during r) n) (ending r)
      && calmReads (fold_left pendingStep (during r) n) rest
  end.

(** * Properties *)

(** ** Strings *)

Lemma append_empty_r (s : string) : (s ++ "")%string = s.
Proof. induction s as [|a s IH]; simpl; [reflexivity | now rewrite IH]. Qed.

Lemma append_assoc (a b c : string) : ((a ++ b) ++ c)%string = (a ++ b ++ c)%string.
Proof. induction a as [|x a IH]; simpl; [reflexivity | now rewrite IH]. Qed.

Lemma length_append (a b : string) :
  String.length (a ++ b) = (String.length a + String.length b)%nat.
Proof. induction a as [|x a IH]; simpl; [reflexivity | now rewrite IH]. Qed.

Lemma substring_skip (a b : string) (k : nat) :
  substring (String.length a) k (a ++ b) = substring 0 k b.
Proof. induction a as [|x a IH]; simpl; [reflexivity | exact IH]. Qed.

Lemma substring_all (s : string) : substring 0 (String.length s) s = s.
Proof. induction s as [|x s IH]; simpl; [reflexivity | now rewrite IH]. Qed.

Lemma HasSuffix_append (a b : string) : HasSuffix (a ++ b) b = true.
Proof.
  unfold HasSuffix. rewrite length_append.
  replace (String.length a + String.length b - String.length b)%nat
    with (String.length a) by lia.
  rewrite substring_skip, substring_all, String.eqb_refl.
  apply andb_true_iff; split; [apply Nat.leb_le; lia | reflexivity].
Qed.

(** Joining a non-empty list with one more, empty, element ends the result
    with the separator. *)
Lemma Join_snoc_empty (e : string) (l : list string) (sep : string) :
  strings.Join ((e :: l) ++ [""]) sep = (strings.Join (e :: l) sep ++ sep)%string.
Proof.
  revert e. induction l as [|x l IH]; intro e.
  - simpl. now rewrite append_empty_r.
  - change (strings.Join ((e :: x :: l) ++ [""]) sep)
      with (e ++ sep ++ strings.Join ((x :: l) ++ [""]) sep)%string.
    rewrite IH.
    change (strings.Join (e :: x :: l) sep)
      with (e ++ sep ++ strings.Join (x :: l) sep)%string.
    now rewrite !append_assoc.
Qed.

(** ** commandChain *)

Lemma commandChain_args (chain : list cli.Command) (a : string) (args : list string) :
  commandChain chain (a :: args) = strings.Join (map cli.Name chain ++ a :: args) " ".
Proof.
  unfold commandChain.
  replace (Z.of_nat (List.length (a :: args)) =? 0) with false.
  - now rewrite andb_false_r.
  - symmetry. apply Z.eqb_neq. simpl List.length. lia.
Qed.

Lemma commandChain_no_args (c : cli.Command) (chain : list cli.Command) :
  commandChain (c :: chain) [] =
  (strings.Join (map cli.Name (c :: chain)) " " ++ " ")%string.
Proof.
  unfold commandChain. rewrite app_nil_r.
  replace (0 <? Z.of_nat (List.length (map cli.Name (c :: chain)))) with true.
  - simpl andb. cbv iota. simpl map. apply Join_snoc_empty.
  - symmetry. apply Z.ltb_lt. simpl List.length. lia.
Qed.

(** C2, as it is written, fails for the empty chain: with no command and no
    argument nothing is appended and the result is the empty string, which
    does not end with a space. *)
Lemma commandChain_empty_chain_no_space :
  commandChain [] [] = "" /\ HasSuffix (commandChain [] []) " " = false.
Proof. split; reflexivity. Qed.

(** C2 (amended): commandChain joins the names of the chain followed by the
    arguments with single spaces; when there is no argument and the chain is
    not empty, one empty element is appended, so the result is the joined
    names followed by one space; when there is neither command nor argument
    the result is the empty string.  In particular
    [commandChain ["show","status"] [] = "show status "] and
    [commandChain ["show"] ["eth0"] = "show eth0"]. *)
Theorem commandChain_joins :
  (forall chain a args,
      commandChain chain (a :: args) =
      strings.Join (map cli.Name chain ++ a :: args) " ")
  /\ (forall c chain,
         commandChain (c :: chain) [] =
         strings.Join (map cli.Name (c :: chain) ++ [""]) " "
         /\ commandChain (c :: chain) [] =
            (strings.Join (map cli.Name (c :: chain)) " " ++ " ")%string
         /\ HasSuffix (commandChain (c :: chain) []) " " = true)
  /\ commandChain [] [] = ""
  /\ commandChain [cli.mkCommand "show"; cli.mkCommand "status"] [] = "show status "
  /\ commandChain [cli.mkCommand "show"] ["eth0"] = "show eth0".
Proof.
  split; [exact commandChain_args|].
  split.
  - intros c chain. rewrite commandChain_no_args. split; [|split].
    + simpl map. now rewrite Join_snoc_empty.
    + reflexivity.
    + apply HasSuffix_append.
  - repeat split.
Qed.

(** ** Running a computation step by step *)

Lemma after_nil (s : State) : after s [] = s.
Proof. destruct s; unfold after; simpl; now rewrite app_nil_r. Qed.

Lemma after_after (s : State) (a b : list Event) :
  after (after s a) b = after s (a ++ b).
Proof. unfold after; simpl; now rewrite app_assoc. Qed.

Lemma bind_assoc {A B C} (m : M A) (k : A -> M B) (h : B -> M C) (s : State) :
  bind (bind m k) h s = bind m (fun a => bind (k a) h) s.
Proof. unfold bind. destruct (m s); reflexivity. Qed.

Lemma bind_ret {A B} (a : A) (k : A -> M B) (s : State) : bind (ret a) k s = k a s.
Proof. reflexivity. Qed.

Lemma bind_get {B} (k : State -> M B) (s : State) : bind get k s = k s s.
Proof. reflexivity. Qed.

Lemma bind_emit {B} (e : Event) (k : unit -> M B) (s : State) :
  bind (emit e) k s = k tt (after s [e]).
Proof. reflexivity. Qed.

Lemma bind_Ret {A B} (m : M A) (k : A -> M B) (s s' : State) (a : A) :
  m s = Ret a s' -> bind m k s = k a s'.
Proof. intro H. unfold bind. now rewrite H. Qed.

Lemma bind_cong {A B} (m : M A) (k k' : A -> M B) (s : State) :
  (forall a s', m s = Ret a s' -> k a s' = k' a s') -> bind m k s = bind m k' s.
Proof. intro H. unfold bind. destruct (m s); auto. Qed.

Lemma bind_Exited {A B} (m : M A) (k : A -> M B) (s s' : State) (c : Z) :
  m s = Exited c s' -> bind m k s = Exited c s'.
Proof. intro H. unfold bind. now rewrite H. Qed.

(** ** The three paths that give the terminal back *)

Lemma exit_eq (A : Type) (s : State) :
  @exit A s = Exited 0 (after (restoreSaved s) [EvStdout nl]).
Proof.
  unfold exit, restoreSaved, bind, get.
  destruct (oldTermState s) eqn:H; unfold terminal_Restore; simpl;
    try reflexivity; rewrite H; reflexivity.
Qed.

Lemma fatalf_eq (A : Type) (msg : string) (s : State) :
  @fatalf A msg s = Exited 1 (after (restoreSaved s) [EvStderr msg; EvStderr nl]).
Proof.
  unfold fatalf, restoreSaved, bind, get.
  destruct (oldTermState s) eqn:H; unfold terminal_Restore, after; simpl;
    rewrite <- ?app_assoc; try reflexivity; rewrite H; reflexivity.
Qed.

Lemma suspend_eq (s : State) :
  suspend s = Ret tt (after (resumeStarted (restoreSaved s)) [EvKill SIGTSTP]).
Proof.
  unfold suspend, restoreSaved, bind, get.
  destruct (oldTermState s) eqn:H; unfold terminal_Restore; simpl;
    try reflexivity; rewrite H; reflexivity.
Qed.

Lemma restoreSaved_Some (s : State) (c : Termios) :
  oldTermState s = Some c -> restoreSaved s = finalState (terminal_Restore c s).
Proof. intro H. unfold restoreSaved. rewrite H. simpl. now rewrite H. Qed.

Lemma restoreSaved_None (s : State) : oldTermState s = None -> restoreSaved s = s.
Proof. intro H. unfold restoreSaved. now rewrite H. Qed.

Lemma bind_exit {A B} (k : A -> M B) (s : State) :
  bind exit k s = Exited 0 (after (restoreSaved s) [EvStdout nl]).
Proof. apply bind_Exited, exit_eq. Qed.

Lemma bind_fatalf {A B} (msg : string) (k : A -> M B) (s : State) :
  bind (fatalf msg) k s = Exited 1 (after (restoreSaved s) [EvStderr msg; EvStderr nl]).
Proof. apply bind_Exited, fatalf_eq. Qed.

Lemma bind_suspend {B} (k : unit -> M B) (s : State) :
  bind suspend k s = k tt (after (resumeStarted (restoreSaved s)) [EvKill SIGTSTP]).
Proof. apply bind_Ret, suspend_eq. Qed.

Ltac mprim :=
  match goal with
  | |- context [bind (set_prompt ?p) ?k ?s] =>
      rewrite (bind_Ret (set_prompt p) k s _ tt eq_refl)
  | |- context [bind (signal_Notify ?l) ?k ?s] =>
      rewrite (bind_Ret (signal_Notify l) k s _ tt eq_refl)
  | |- context [bind (go ?g) ?k ?s] =>
      rewrite (bind_Ret (go g) k s _ tt eq_refl)
  | |- context [bind woken ?k ?s] =>
      rewrite (bind_Ret woken k s _ tt eq_refl)
  end.

Ltac mstep :=
  first [ rewrite bind_assoc | rewrite bind_emit | rewrite bind_get
        | rewrite bind_ret | rewrite bind_exit | rewrite bind_fatalf
        | rewrite bind_suspend | mprim ];
  cbv beta.

(** An event that is not among those of an explicit list. *)
Ltac notin :=
  let H := fresh "H" in
  intros; unfold not; intro H; simpl in H; intuition discriminate.

Ltac mrun :=
  unfold term_Write, fmt_Print, fmt_Eprint in *; repeat mstep;
  rewrite ?exit_eq, ?fatalf_eq, ?suspend_eq.

(** ** autoComplete *)

Lemma forEach_candidates (cs : list cli.Command) (s : State) :
  forEach cs (fun c => term_Write (" " ++ cli.Name c) ;; term_Write nl) s =
  Ret tt (after s (candidateLines cs)).
Proof.
  revert s. induction cs as [|c cs IH]; intro s.
  - simpl. now rewrite after_nil.
  - simpl forEach. rewrite bind_assoc. unfold term_Write at 1. rewrite bind_emit.
    unfold term_Write at 1. rewrite bind_emit. cbv beta.
    rewrite IH, !after_after. reflexivity.
Qed.

Lemma slice0_in_range (line : string) (pos : Z) (s : State) :
  0 <= pos <= len line ->
  slice0 line pos s = Ret (substring 0 (Z.to_nat pos) line) s.
Proof.
  intros [H0 H1]. unfold slice0.
  apply Z.leb_le in H0. apply Z.leb_le in H1. now rewrite H0, H1.
Qed.

(** What the help key does, whatever the command tree answers. *)
Lemma autoComplete_help (E : Env) (line : string) (pos : Z) (s : State) :
  0 <= pos <= len line ->
  let f := FindCommand E (substring 0 (Z.to_nat pos) line) in
  let line' := commandChain (cli.chain f) (cli.args f) in
  autoComplete E line pos 63 s =
  Ret (line', len line', true)
      (after s
         ([EvFindCommand (substring 0 (Z.to_nat pos) line)]
          ++ (if isNil (cli.cmd f)
              then [EvTermWrite (prompt s); EvTermWrite line; EvTermWrite ("?" ++ nl)]
              else [])
          ++ match cli.subcmds f with
             | Some cs => candidateLines cs
             | None => if isNil (cli.cmd f)
                       then [EvTermWrite ("Unknown command." ++ nl)] else []
             end)).
Proof.
  intros Hpos f line'. unfold autoComplete. cbn [Z.eqb Pos.eqb].
  rewrite (bind_Ret _ _ _ _ _ (slice0_in_range _ _ _ Hpos)).
  unfold cli_FindCommand. mrun. fold f.
  destruct (isNil (cli.cmd f)); unfold when; mrun;
    (destruct (cli.subcmds f) as [cs|];
     [ rewrite (bind_Ret _ _ _ _ _ (forEach_candidates _ _)) | mrun ]);
    unfold ret; rewrite ?after_after; reflexivity.
Qed.

Lemma autoComplete_tab (E : Env) (line : string) (pos : Z) (s : State) :
  autoComplete E line pos 9 s =
  Ret (commandChain (cli.chain (FindCommand E line)) (cli.args (FindCommand E line)),
       len (commandChain (cli.chain (FindCommand E line)) (cli.args (FindCommand E line))),
       true)
      (after s [EvFindCommand line]).
Proof. reflexivity. Qed.

(** C3, as it is written, fails: the expand key resolves the whole line, not
    the text left of the cursor.  With the cursor after [show] in
    [show status] the command tree is asked for [show status] and the line
    becomes [show status ], where resolving the text left of the cursor
    would give [show ]. *)
Lemma tab_resolves_whole_line :
  autoComplete Demo.env "show status" 4 9 Demo.editing =
    Ret ("show status ", 12, true) (after Demo.editing [EvFindCommand "show status"])
  /\ spec_expand Demo.env "show status" 4 Demo.editing =
    Ret ("show ", 5, true) (after Demo.editing [EvFindCommand "show"])
  /\ autoComplete Demo.env "show status" 4 9 Demo.editing
     <> spec_expand Demo.env "show status" 4 Demo.editing.
Proof.
  split; [reflexivity|]. split; [reflexivity|]. intro H. discriminate H.
Qed.

(** C3 (amended): for every line, cursor position and command tree, the
    expand key (Tab) resolves the whole line, wherever the cursor is, and,
    whatever the resolution is, replaces the line with the chain-join of the
    resolved chain and the remaining arguments, the cursor at its end; it
    prints nothing: the only effect is the call of FindCommand. *)
Theorem tab_expands_line (E : Env) (line : string) (pos : Z) (s : State) :
  autoComplete E line pos 9 s =
    Ret (commandChain (cli.chain (FindCommand E line)) (cli.args (FindCommand E line)),
         len (commandChain (cli.chain (FindCommand E line)) (cli.args (FindCommand E line))),
         true)
        (after s [EvFindCommand line])
  /\ written (trace (after s [EvFindCommand line])) = written (trace s)
  /\ stdout (trace (after s [EvFindCommand line])) = stdout (trace s).
Proof.
  split; [apply autoComplete_tab|].
  unfold after; simpl trace. split.
  - induction (trace s) as [|e t IH]; [reflexivity|]. destruct e; simpl; now rewrite ?IH.
  - induction (trace s) as [|e t IH]; [reflexivity|]. destruct e; simpl; now rewrite ?IH.
Qed.

(** C4, as it is written, fails: the question mark does not stand on a line
    of its own.  With [xyz] typed at the prompt [admin@lab> ], and no command
    of that name, the help key makes the terminal show the prompt, the line
    and the question mark on one line, and [Unknown command.] on the next;
    no line holds the question mark only. *)
Lemma help_question_mark_ends_echoed_line :
  cli.cmd (Demo.find (substring 0 3 "xyz")) = None
  /\ text (written (trace (finalState (autoComplete Demo.env "xyz" 3 63 Demo.editing)))) =
     ("admin@lab> xyz?" ++ nl ++ "Unknown command." ++ nl)%string
  /\ lines (text (written (trace (finalState
              (autoComplete Demo.env "xyz" 3 63 Demo.editing))))) =
     ["admin@lab> xyz?"; "Unknown command."; ""]
  /\ ~ In "?" (lines (text (written (trace (finalState
                  (autoComplete Demo.env "xyz" 3 63 Demo.editing)))))).
Proof.
  split; [reflexivity|]. split; [reflexivity|]. split; [reflexivity|].
  vm_compute. intros [H|[H|[H|[]]]]; discriminate H.
Qed.

(** C4 (amended): when the text left of the cursor resolves to no command
    and no candidate, the help key writes, in this order, the prompt, the
    line as typed, a question mark and a line feed, and [Unknown command.]
    with a line feed, so that the terminal receives the prompt, the line and
    the question mark as one line and [Unknown command.] as the next; the
    line becomes the chain-join of the resolution. *)
Theorem help_unknown_command (E : Env) (line : string) (pos : Z) (s : State)
    (chain : list cli.Command) (args : list string) :
  0 <= pos <= len line ->
  FindCommand E (substring 0 (Z.to_nat pos) line) = cli.mkFound None None chain args ->
  autoComplete E line pos 63 s =
    Ret (commandChain chain args, len (commandChain chain args), true)
        (after s [EvFindCommand (substring 0 (Z.to_nat pos) line);
                  EvTermWrite (prompt s);
                  EvTermWrite line;
                  EvTermWrite ("?" ++ nl);
                  EvTermWrite ("Unknown command." ++ nl)])
  /\ text (written [EvFindCommand (substring 0 (Z.to_nat pos) line);
                    EvTermWrite (prompt s);
                    EvTermWrite line;
                    EvTermWrite ("?" ++ nl);
                    EvTermWrite ("Unknown command." ++ nl)]) =
     (prompt s ++ line ++ "?" ++ nl ++ "Unknown command." ++ nl)%string.
Proof.
  intros Hpos Hf. split.
  - rewrite (autoComplete_help E line pos s Hpos). cbv zeta.
    rewrite Hf. reflexivity.
  - reflexivity.
Qed.

Lemma help_unknown_command_witness :
  autoComplete Demo.env "xyz" 3 63 Demo.editing =
    Ret ("xyz", 3, true)
        (after Demo.editing [EvFindCommand "xyz";
                             EvTermWrite "admin@lab> ";
                             EvTermWrite "xyz";
                             EvTermWrite ("?" ++ nl);
                             EvTermWrite ("Unknown command." ++ nl)])
  /\ text ["admin@lab> "; "xyz"; ("?" ++ nl)%string; ("Unknown command." ++ nl)%string] =
     ("admin@lab> xyz?" ++ nl ++ "Unknown command." ++ nl)%string.
Proof.
  apply (help_unknown_command Demo.env "xyz" 3 Demo.editing [] ["xyz"]).
  - unfold len; simpl; lia.
  - reflexivity.
Defined.

(** C5, as it is written, fails twice.  The help key does not leave the
    line unchanged: with the cursor after [s] in [s x], an ambiguous prefix,
    the line becomes [s].  The expand key prints no candidate: on the
    ambiguous line [s] it writes nothing. *)
Lemma ambiguous_line_replaced_tab_silent :
  cli.subcmds (Demo.find (substring 0 1 "s x")) = Some [Demo.set; Demo.show]
  /\ autoComplete Demo.env "s x" 1 63 Demo.editing =
     Ret ("s", 1, true)
         (after Demo.editing [EvFindCommand "s";
                              EvTermWrite "admin@lab> "; EvTermWrite "s x";
                              EvTermWrite ("?" ++ nl);
                              EvTermWrite " set"; EvTermWrite nl;
                              EvTermWrite " show"; EvTermWrite nl])
  /\ "s" <> "s x"
  /\ cli.subcmds (Demo.find "s") = Some [Demo.set; Demo.show]
  /\ autoComplete Demo.env "s" 1 9 Demo.editing =
     Ret ("s", 1, true) (after Demo.editing [EvFindCommand "s"])
  /\ written [EvFindCommand "s"] = [].
Proof.
  repeat split; try reflexivity. intro H; discriminate H.
Qed.

(** C5 (amended): when the text left of the cursor resolves to no command
    but to candidate sub-commands, the help key writes the prompt, the line
    and a question mark with a line feed, then every candidate in the order
    the command tree gives them, each as a space and its name followed by a
    line feed, and replaces the line with the chain-join of the resolution,
    the cursor at its end.  The expand key writes nothing and replaces the
    line with the chain-join of the resolution of the whole line. *)
Theorem help_lists_candidates (E : Env) (line : string) (pos : Z) (s : State)
    (cs chain : list cli.Command) (args : list string) :
  0 <= pos <= len line ->
  FindCommand E (substring 0 (Z.to_nat pos) line) = cli.mkFound None (Some cs) chain args ->
  autoComplete E line pos 63 s =
    Ret (commandChain chain args, len (commandChain chain args), true)
        (after s ([EvFindCommand (substring 0 (Z.to_nat pos) line);
                   EvTermWrite (prompt s);
                   EvTermWrite line;
                   EvTermWrite ("?" ++ nl)]
                  ++ candidateLines cs))
  /\ written (candidateLines cs) =
     flat_map (fun c => [(" " ++ cli.Name c)%string; nl]) cs
  /\ autoComplete E line pos 9 s =
     Ret (commandChain (cli.chain (FindCommand E line)) (cli.args (FindCommand E line)),
          len (commandChain (cli.chain (FindCommand E line)) (cli.args (FindCommand E line))),
          true)
         (after s [EvFindCommand line]).
Proof.
  intros Hpos Hf. split; [|split].
  - rewrite (autoComplete_help E line pos s Hpos). cbv zeta.
    rewrite Hf. reflexivity.
  - clear. induction cs as [|c cs IH]; [reflexivity|].
    unfold candidateLines in *. cbn [flat_map written app]. now rewrite IH.
  - apply autoComplete_tab.
Qed.

Lemma help_lists_candidates_witness :
  autoComplete Demo.env "s x" 1 63 Demo.editing =
    Ret ("s", 1, true)
        (after Demo.editing ([EvFindCommand "s";
                              EvTermWrite "admin@lab> "; EvTermWrite "s x";
                              EvTermWrite ("?" ++ nl)]
                             ++ candidateLines [Demo.set; Demo.show])).
Proof.
  apply (help_lists_candidates Demo.env "s x" 1 Demo.editing
           [Demo.set; Demo.show] [] ["s"]).
  - unfold len; simpl; lia.
  - reflexivity.
Defined.

(** ** Straight runs of [main] *)

Lemma terminalInit_ok (E : Env) (s : State) :
  terminalInit E None s =
  Ret tt (mkState (makeRaw E (tty s)) (Some (tty s)) (prompt s) (Some (prompt s))
                  (notified s) (listening s) (resumes s)
                  (trace s ++ [EvMakeRaw true; EvNewTerminal (prompt s)])).
Proof.
  unfold terminalInit, bind, terminal_MakeRaw, get, ret, terminal_NewTerminal; simpl.
  now rewrite <- app_assoc.
Qed.

Lemma terminalInit_fails (E : Env) (e : string) (s : State) :
  terminalInit E (Some e) s =
  Exited 1 (mkState (tty s) None (prompt s) (term s)
                    (notified s) (listening s) (resumes s)
                    (trace s ++ [EvMakeRaw false;
                                 EvStderr ("Failed to get raw terminal: " ++ e);
                                 EvStderr nl])).
Proof.
  unfold terminalInit, bind, terminal_MakeRaw. rewrite fatalf_eq.
  unfold restoreSaved, after; simpl. now rewrite <- app_assoc.
Qed.

Lemma terminalInit_eq (E : Env) (answer : error) (s : State) :
  terminalInit E answer s =
  match answer with
  | None =>
      Ret tt (finalState (terminal_NewTerminal (prompt s)
                            (finalState (terminal_MakeRaw E None s))))
  | Some e =>
      Exited 1 (after (finalState (terminal_MakeRaw E (Some e) s))
                      ([EvStderr ("Failed to get raw terminal: " ++ e)] ++ [EvStderr nl]))
  end.
Proof.
  destruct answer as [e|].
  - unfold terminalInit, bind, terminal_MakeRaw. rewrite fatalf_eq. reflexivity.
  - reflexivity.
Qed.

Lemma executed_app (a b : list Event) : executed (a ++ b) = executed a ++ executed b.
Proof.
  induction a as [|e a IH]; [reflexivity|]. destruct e; simpl; now rewrite ?IH.
Qed.

(** [main] in one-shot mode, the engine reached. *)
Lemma main_one_shot (E : Env) (w : World) :
  command w <> "" -> newSeesawIPC w = None -> dial w = None ->
  run E w =
  match oneShot w with
  | Done =>
      Ret tt (after (initial w) [EvNewSeesawIPC; EvDial (engineSocket w);
                                 EvExecute (command w); EvClose])
  | Failed e =>
      Exited 1 (after (initial w) [EvNewSeesawIPC; EvDial (engineSocket w);
                                   EvExecute (command w); EvStderr e; EvStderr nl])
  | Quit =>
      Exited 0 (after (initial w) [EvNewSeesawIPC; EvDial (engineSocket w);
                                   EvExecute (command w); EvStdout nl])
  end.
Proof.
  intros Hc Hn Hd. unfold run, main. rewrite Hn, Hd.
  apply String.eqb_neq in Hc. rewrite Hc. unfold when, seesawCLI_Execute.
  mrun. destruct (oneShot w); mrun; reflexivity.
Qed.

(** C7: in one-shot mode, the engine reached, Execute is called exactly once,
    with the command given, and neither ReadLine nor raw mode is ever
    reached; when Execute fails the failure and a line feed go to the error
    stream and the exit status is 1; when it succeeds the exit status is 0. *)
Theorem one_shot_executes_once (E : Env) (w : World) :
  command w <> "" -> newSeesawIPC w = None -> dial w = None ->
  executed (trace (finalState (run E w))) = [command w]
  /\ ~ In EvReadLine (trace (finalState (run E w)))
  /\ (forall ok, ~ In (EvMakeRaw ok) (trace (finalState (run E w))))
  /\ match oneShot w with
     | Failed e =>
         exitStatus (run E w) = Some 1
         /\ stderr (trace (finalState (run E w))) = (e ++ nl)%string
     | Done | Quit => exitStatus (run E w) = Some 0
     end.
Proof.
  intros Hc Hn Hd. rewrite (main_one_shot E w Hc Hn Hd).
  destruct (oneShot w); simpl; repeat split; try reflexivity; notin.
Qed.

Lemma one_shot_executes_once_witness :
  executed (trace (finalState (run Demo.env (Demo.world "show status" [])))) =
    ["show status"]
  /\ exitStatus (run Demo.env (Demo.world "show status" [])) = Some 0.
Proof.
  destruct (one_shot_executes_once Demo.env (Demo.world "show status" []))
    as (H1 & _ & _ & H4).
  - intro H; discriminate H.
  - reflexivity.
  - reflexivity.
  - split; [exact H1 | exact H4].
Defined.

(** ** The start of an interactive session *)

Lemma bind_then_exit {A B C} (m : M A) (k : B -> M C) (s : State) :
  bind m (fun _ => bind exit k) s = bind m (fun _ => exit) s.
Proof.
  unfold bind at 1 3. destruct (m s); try reflexivity.
  now rewrite bind_exit, exit_eq.
Qed.

(** [main] without a command, up to the call of [terminalInit]. *)
Lemma main_interactive (E : Env) (w : World) (st : ClusterStatus) (u : string) (ha : Z) :
  command w = "" -> newSeesawIPC w = None -> dial w = None ->
  clusterStatus w = Ok st -> userCurrent w = Ok u -> haStatus w = Ok ha ->
  run E w =
  bind (terminalInit E (rawAtStart w))
       (fun _ => bind (readLoop E (reads w)) (fun _ => exit))
       (beforeRaw E w st u ha).
Proof.
  intros Hc Hn Hd Hs Hu Hh. unfold run, main. rewrite Hn, Hd, Hc.
  change (String.eqb "" "") with true. unfold when at 1.
  mrun. rewrite bind_then_exit.
  unfold interactive. rewrite Hs, Hu, Hh. unfold orFatal.
  mrun. unfold when, banner, notMaster, beforeRaw.
  destruct (ha =? HAMaster E); simpl negb; cbv iota; mrun; reflexivity.
Qed.

(** C9, as it is written, fails: when raw mode cannot be entered the
    process has already printed its banner on standard output. *)
Lemma raw_failure_after_banner :
  exitStatus (run Demo.env Demo.worldNoTerminal) = Some 1
  /\ stdout (trace (finalState (run Demo.env Demo.worldNoTerminal))) = banner 2
  /\ banner 2 <> "".
Proof.
  split; [reflexivity|]. split; [reflexivity|]. intro H; discriminate H.
Qed.

Lemma stdout_app (a b : list Event) : stdout (a ++ b) = (stdout a ++ stdout b)%string.
Proof.
  induction a as [|e a IH]; [reflexivity|].
  destruct e; simpl; rewrite ?IH, ?append_assoc; reflexivity.
Qed.

(** C9 (amended): when the first attempt to enter raw mode fails, the
    banner (and the warning, when the engine is not the master) has been
    printed on standard output, but no prompt and nothing of the line editor;
    the process writes [Failed to get raw terminal: ] and the error, with a
    line feed, to the error stream and ends with status 1.  Nothing was
    saved, so no restore is attempted; the terminal keeps the configuration
    it had. *)
Theorem raw_mode_failure_is_fatal (E : Env) (w : World)
    (st : ClusterStatus) (u : string) (ha : Z) (e : string) :
  command w = "" -> newSeesawIPC w = None -> dial w = None ->
  clusterStatus w = Ok st -> userCurrent w = Ok u -> haStatus w = Ok ha ->
  rawAtStart w = Some e ->
  exitStatus (run E w) = Some 1
  /\ stderr (trace (finalState (run E w))) =
     ("Failed to get raw terminal: " ++ e ++ nl)%string
  /\ stdout (trace (finalState (run E w))) =
     (banner (Version st) ++ (if (ha =? HAMaster E)%Z then "" else notMaster))%string
  /\ written (trace (finalState (run E w))) = []
  /\ ~ In EvReadLine (trace (finalState (run E w)))
  /\ (forall c, ~ In (EvRestore c) (trace (finalState (run E w))))
  /\ tty (finalState (run E w)) = termios w.
Proof.
  intros Hc Hn Hd Hs Hu Hh Hr.
  rewrite (main_interactive E w st u ha Hc Hn Hd Hs Hu Hh), Hr.
  rewrite (bind_Exited _ _ _ _ _ (terminalInit_fails E e _)).
  unfold beforeRaw. cbn [finalState exitStatus trace tty].
  destruct (ha =? HAMaster E); cbn [app stderr stdout written];
    rewrite ?append_empty_r, ?append_assoc;
    repeat split; try reflexivity; notin.
Qed.

Lemma raw_mode_failure_is_fatal_witness :
  exitStatus (run Demo.env Demo.worldNoTerminal) = Some 1
  /\ stderr (trace (finalState (run Demo.env Demo.worldNoTerminal))) =
     ("Failed to get raw terminal: inappropriate ioctl for device" ++ nl)%string.
Proof.
  destruct (raw_mode_failure_is_fatal Demo.env Demo.worldNoTerminal
              (mkClusterStatus 2 "lab") "admin" 4 "inappropriate ioctl for device")
    as (H1 & H2 & _); try reflexivity.
  split; [exact H1 | exact H2].
Defined.

(** ** Invariants of every run

    Whatever holds at the start, is kept by each step the program can take
    and needs no more than what the program guarantees when it takes the
    step, holds when the run is over. *)

Section Invariants.

Variable E : Env.
Variable w : World.
Variable I : State -> Prop.
Variable allowed : string -> Prop.

Hypothesis I_plain : forall e s, plain e -> I s -> I (after s [e]).
Hypothesis I_execute : forall l s, allowed l -> I s -> I (after s [EvExecute l]).
Hypothesis I_restore :
  forall c s, oldTermState s = Some c -> I s -> I (finalState (terminal_Restore c s)).
Hypothesis I_makeRaw :
  forall answer s, armed s -> I s -> I (finalState (terminal_MakeRaw E answer s)).
Hypothesis I_newTerminal :
  forall p s, I s -> I (finalState (terminal_NewTerminal p s)).
Hypothesis I_prompt : forall p s, I s -> I (finalState (set_prompt p s)).
Hypothesis I_notify : forall s, I s -> I (finalState (signal_Notify terminating s)).
Hypothesis I_go : forall g s, I s -> I (finalState (go g s)).
Hypothesis I_woken : forall s, I s -> I (finalState (woken s)).
Hypothesis allowed_lines :
  forall r cmdline ex,
    In r (reads w) -> ending r = Entered cmdline ex ->
    strings.TrimSpace cmdline <> "" -> allowed (strings.TrimSpace cmdline).
Hypothesis allowed_command : command w <> "" -> allowed (command w).

(** The invariant together with the listener in place. *)
Let J (s : State) : Prop := I s /\ armed s.

Lemma sound_bind {A B} (P : State -> Prop) (Q : A -> State -> Prop)
    (R : B -> State -> Prop) (m : M A) (k : A -> M B) :
  sound I P m Q -> (forall a, sound I (Q a) (k a) R) -> sound I P (bind m k) R.
Proof.
  intros Hm Hk s HP. specialize (Hm s HP). unfold bind.
  destruct (m s) as [a s'| | | |]; try exact Hm. apply Hk, Hm.
Qed.

Lemma sound_ret {A} (P : State -> Prop) (Q : A -> State -> Prop) (a : A) :
  (forall s, P s -> Q a s) -> sound I P (ret a) Q.
Proof. intros H s HP. apply H, HP. Qed.

Lemma sound_pre {A} (P P' : State -> Prop) (Q : A -> State -> Prop) (m : M A) :
  (forall s, P' s -> P s) -> sound I P m Q -> sound I P' m Q.
Proof. intros H Hm s HP. apply Hm, H, HP. Qed.

Lemma sound_post {A} (P : State -> Prop) (Q Q' : A -> State -> Prop) (m : M A) :
  (forall a s, Q a s -> Q' a s) -> sound I P m Q -> sound I P m Q'.
Proof.
  intros H Hm s HP. specialize (Hm s HP). destruct (m s); auto.
Qed.

Lemma sound_get {B} (P : State -> Prop) (Q : B -> State -> Prop) (k : State -> M B) :
  (forall s0, sound I P (k s0) Q) -> sound I P (bind get k) Q.
Proof. intros H s HP. rewrite bind_get. now apply H. Qed.

Lemma sound_forEach {A} (P : State -> Prop) (l : list A) (body : A -> M unit) :
  (forall a, In a l -> sound I P (body a) (fun _ => P)) ->
  sound I P (forEach l body) (fun _ => P).
Proof.
  induction l as [|a l IH]; intro H.
  - apply sound_ret; auto.
  - simpl. eapply sound_bind.
    + apply H. now left.
    + intros ?. apply IH. intros b Hb. apply H. now right.
Qed.

Lemma J_plain (e : Event) (s : State) : plain e -> J s -> J (after s [e]).
Proof. intros He [Hi Ha]. split; [now apply I_plain | exact Ha]. Qed.

Lemma J_restoreSaved (s : State) : J s -> J (restoreSaved s).
Proof.
  intros [Hi Ha]. destruct (oldTermState s) as [c|] eqn:Ho.
  - rewrite (restoreSaved_Some s c Ho). split; [exact (I_restore c s Ho Hi) | exact Ha].
  - rewrite (restoreSaved_None s Ho). now split.
Qed.

Lemma I_restoreSaved (s : State) : I s -> I (restoreSaved s).
Proof.
  intros Hi. destruct (oldTermState s) as [c|] eqn:Ho.
  - rewrite (restoreSaved_Some s c Ho). exact (I_restore c s Ho Hi).
  - rewrite (restoreSaved_None s Ho). exact Hi.
Qed.

Lemma sound_emit (P : State -> Prop) (e : Event) :
  (forall s, P s -> P (after s [e])) -> sound I P (emit e) (fun _ => P).
Proof. intros H s HP. apply H, HP. Qed.

Lemma sound_emit_I (e : Event) : plain e -> sound I I (emit e) (fun _ => I).
Proof. intros He. apply sound_emit; auto. Qed.

Lemma sound_emit_J (e : Event) : plain e -> sound I J (emit e) (fun _ => J).
Proof. intros He. apply sound_emit; auto using J_plain. Qed.

Lemma sound_exit {A} (P : State -> Prop) (Q : A -> State -> Prop) :
  (forall s, P s -> I s) -> sound I P exit Q.
Proof.
  intros H s HP. rewrite exit_eq. simpl.
  apply I_plain; [exact Logic.I|]. apply I_restoreSaved, H, HP.
Qed.

Lemma sound_fatalf {A} (P : State -> Prop) (Q : A -> State -> Prop) (msg : string) :
  (forall s, P s -> I s) -> sound I P (fatalf msg) Q.
Proof.
  intros H s HP. rewrite fatalf_eq. simpl.
  change [EvStderr msg; EvStderr nl] with ([EvStderr msg] ++ [EvStderr nl]).
  rewrite <- after_after.
  apply I_plain; [exact Logic.I|]. apply I_plain; [exact Logic.I|].
  apply I_restoreSaved, H, HP.
Qed.

Lemma J_I (s : State) : J s -> I s.
Proof. now intros [H _]. Qed.

Lemma sound_suspend : sound I J suspend (fun _ => J).
Proof.
  intros s HJ. rewrite suspend_eq. apply J_plain; [exact Logic.I|].
  apply J_restoreSaved in HJ. destruct HJ as [Hi Ha]. split.
  - exact (I_go GoResume _ Hi).
  - exact Ha.
Qed.

Lemma sound_terminalInit (answer : error) :
  sound I J (terminalInit E answer) (fun _ => J).
Proof.
  intros s [Hi Ha]. pose proof (I_makeRaw answer s Ha Hi) as Hraw.
  rewrite terminalInit_eq. destruct answer as [e|].
  - rewrite <- after_after. simpl finalState at 1.
    apply I_plain; [exact Logic.I|]. apply I_plain; [exact Logic.I|]. exact Hraw.
  - split.
    + apply I_newTerminal, Hraw.
    + exact Ha.
Qed.

Lemma sound_resume (answer : error) : sound I J (resume E answer) (fun _ => J).
Proof.
  unfold resume. eapply sound_bind; [apply sound_emit_J; exact Logic.I|]. intros ?.
  eapply sound_bind; [apply sound_emit_J; exact Logic.I|]. intros ?.
  apply sound_terminalInit.
Qed.

Ltac jstep :=
  cbv beta;
  first
    [ apply sound_ret; intros ? ?; assumption
    | apply sound_emit_J; exact Logic.I
    | apply sound_exit; exact J_I
    | apply sound_fatalf; exact J_I
    | apply sound_suspend
    | apply sound_get; intros ?
    | eapply (sound_bind _ (fun _ => J)); [ | intros ? ] ].

Lemma sound_autoComplete (line : string) (pos key : Z) :
  sound I J (autoComplete E line pos key) (fun _ => J).
Proof.
  unfold autoComplete, cli_FindCommand, term_Write, slice0, when.
  repeat match goal with
         | |- sound _ _ (if ?b then _ else _) _ => destruct b
         | |- sound _ _ (match ?x with Some _ => _ | None => _ end) _ => destruct x
         | |- sound _ _ panic _ => intros s HJ; exact (J_I s HJ)
         | |- sound _ _ (forEach _ _) _ => apply sound_forEach; intros ? _
         | |- _ => jstep
         end.
Qed.

Lemma sound_deliver (sig : Signal) : sound I J (deliver sig) (fun _ => J).
Proof.
  unfold deliver. apply sound_get; intros s0.
  destruct (existsb (Signal_eqb sig) (notified s0)).
  - destruct (listening s0); jstep.
  - destruct sig; try jstep; intros s HJ; exact (J_I s HJ).
Qed.

Lemma sound_async (a : Async) : sound I J (async E a) (fun _ => J).
Proof.
  destruct a as [line pos key|sig|answer]; simpl.
  - eapply sound_bind; [apply sound_autoComplete | intros ?; jstep].
  - apply sound_deliver.
  - apply sound_get; intros s0. destruct (resumes s0); [jstep|].
    eapply sound_bind; [|intros ?; apply sound_resume].
    intros s [Hi Ha]. split; [apply I_woken, Hi | exact Ha].
Qed.

Lemma sound_term_ReadLine (r : Read) :
  sound I J (term_ReadLine E r) (fun got s => got = ending r /\ J s).
Proof.
  unfold term_ReadLine. eapply sound_bind; [apply sound_emit_J; exact Logic.I|].
  intros ?. eapply sound_bind.
  - apply sound_forEach. intros x _. apply sound_async.
  - intros ?. apply sound_ret. auto.
Qed.

Lemma sound_Execute (line : string) (ex : Executed) :
  allowed line -> sound I J (seesawCLI_Execute line ex) (fun _ => J).
Proof.
  intro Hl. unfold seesawCLI_Execute. eapply sound_bind.
  - apply (sound_emit J). intros s [Hi Ha]. split; [now apply I_execute | exact Ha].
  - intros ?. destruct ex; jstep.
Qed.

Lemma sound_readLoop (rs : list Read) :
  (forall r, In r rs -> In r (reads w)) ->
  sound I J (readLoop E rs) (fun _ => J).
Proof.
  induction rs as [|r rest IH]; intro Hin; simpl readLoop.
  - eapply sound_bind; [apply sound_emit_J; exact Logic.I|].
    intros ? s HJ. exact (J_I s HJ).
  - eapply sound_bind; [apply sound_term_ReadLine|]. intros got.
    assert (Hrest : sound I J (readLoop E rest) (fun _ => J)).
    { apply IH. intros x Hx. apply Hin. now right. }
    destruct got as [cmdline ex| e |].
    + destruct (String.eqb (strings.TrimSpace cmdline) "") eqn:Hblank.
      * eapply sound_pre; [|exact Hrest]. now intros s [_ HJ].
      * eapply sound_bind.
        -- intros s [Hgot HJ]. apply sound_Execute; [|exact HJ].
           apply (allowed_lines r cmdline ex); [apply Hin; now left | now symmetry |].
           now apply String.eqb_neq.
        -- intros err. eapply sound_bind; [|intros ?; exact Hrest].
           destruct err; jstep.
    + apply sound_ret. now intros s [_ HJ].
    + intros s [_ HJ]. exact (J_I s HJ).
Qed.

Ltac istep :=
  cbv beta;
  first
    [ apply sound_ret; intros ? ?; assumption
    | apply sound_emit_I; exact Logic.I
    | apply sound_exit; intros ? ?; assumption
    | apply sound_fatalf; intros ? ?; assumption
    | apply sound_get; intros ?
    | eapply (sound_bind _ (fun _ => I)); [ | intros ? ] ].

Lemma handled_notify (sig : Signal) (s : State) :
  In sig terminating ->
  handled sig (finalState (signal_Notify terminating s)) = true.
Proof.
  intro H. unfold handled. simpl notified. rewrite existsb_app.
  apply orb_true_iff. right.
  destruct H as [<-|[<-|[<-|[]]]]; reflexivity.
Qed.

Lemma sound_interactive : sound I I (interactive E w) (fun _ => J).
Proof.
  unfold interactive, orFatal, fmt_Print, when.
  istep; [istep|]. istep; [destruct (clusterStatus w); istep|].
  istep; [istep|]. istep; [istep|].
  istep; [destruct (userCurrent w); istep|].
  istep; [istep|]. istep; [destruct (haStatus w); istep|].
  istep; [match goal with
          | |- sound _ _ (if ?b then _ else _) _ => destruct b
          end; istep|].
  istep; [intros s Hi; apply I_prompt, Hi|].
  eapply (sound_bind _ (fun _ s => I s /\ handled SIGINT s = true
                                   /\ handled SIGQUIT s = true
                                   /\ handled SIGTERM s = true)).
  { intros s Hi. split; [apply I_notify, Hi|].
    repeat split; apply handled_notify; simpl; auto. }
  intros ?. eapply (sound_bind _ (fun _ => J)).
  { intros s (Hi & H1 & H2 & H3). split; [exact (I_go GoSignalWait s Hi)|].
    split; [reflexivity|]. repeat split; assumption. }
  intros ?. eapply (sound_bind _ (fun _ => J)); [apply sound_terminalInit|].
  intros ?. apply sound_readLoop. auto.
Qed.

Lemma sound_main : sound I I (main E w) (fun _ => I).
Proof.
  unfold main, when.
  istep; [istep|]. istep; [destruct (newSeesawIPC w); istep|].
  istep; [istep|]. istep; [destruct (dial w); istep|].
  destruct (String.eqb (command w) "") eqn:Hc.
  - eapply (sound_bind _ (fun _ _ => False)); [|intros ? s []].
    eapply (sound_bind _ (fun _ => J)); [apply sound_interactive|].
    intros ?. apply sound_exit. exact J_I.
  - istep; [istep|]. apply String.eqb_neq in Hc.
    eapply (sound_bind _ (fun _ => I)).
    + unfold seesawCLI_Execute. istep.
      * apply sound_emit. intros s Hi. apply I_execute; [|exact Hi].
        exact (allowed_command Hc).
      * destruct (oneShot w); istep.
    + intros err. istep; [destruct err; istep | istep].
Qed.

(** What holds of the first state and is kept by every step holds of the
    last state of the run, however the run ends. *)
Theorem run_invariant : I (initial w) -> I (finalState (run E w)).
Proof.
  intro H. pose proof (sound_main (initial w) H) as Hs. unfold run.
  destruct (main E w (initial w)); exact Hs.
Qed.

End Invariants.

(** ** Blank lines *)

Lemma in_snoc {A} (x e : A) (t : list A) : In x (t ++ [e]) -> In x t \/ x = e.
Proof.
  intro H. apply in_app_or in H. destruct H as [H|[H|[]]]; [now left | now right].
Qed.

Lemma onlyDispatched_step (w : World) (s s' : State) (e : Event) :
  trace s' = trace s ++ [e] -> (forall l, e = EvExecute l -> dispatched w l) ->
  onlyDispatched w s -> onlyDispatched w s'.
Proof.
  intros Ht He H l Hl. rewrite Ht in Hl. apply in_snoc in Hl.
  destruct Hl as [Hl|Hl]; [now apply H | apply He; now symmetry].
Qed.

Lemma onlyDispatched_same (w : World) (s s' : State) :
  trace s' = trace s -> onlyDispatched w s -> onlyDispatched w s'.
Proof. intros Ht H l Hl. rewrite Ht in Hl. now apply H. Qed.

Lemma term_ReadLine_returns (E : Env) (r : Read) (s s' : State) (got : ReadResult) :
  term_ReadLine E r s = Ret got s' -> got = ending r.
Proof.
  unfold term_ReadLine. rewrite bind_emit. unfold bind.
  destruct (forEach (during r) (async E) (after s [EvReadLine])); intro H;
    try discriminate H.
  unfold ret in H. now inversion H.
Qed.

(** An iteration that reads a blank line does nothing but read it. *)
Lemma readLoop_blank (E : Env) (evs : list Async) (cmdline : string) (ex : Executed)
    (rest : list Read) (s : State) :
  strings.TrimSpace cmdline = "" ->
  readLoop E (mkRead evs (Entered cmdline ex) :: rest) s =
  bind (term_ReadLine E (mkRead evs (Entered cmdline ex))) (fun _ => readLoop E rest) s.
Proof.
  intro Hb. simpl readLoop. apply bind_cong. intros got s' Hr.
  apply term_ReadLine_returns in Hr. simpl in Hr. subst got. rewrite Hb. reflexivity.
Qed.

Lemma trimLeft_blank (flip : bool) (s : string) :
  blank s = true -> strings.trimLeft flip s = "".
Proof.
  induction s as [|a r IH]; [reflexivity|]. simpl. intro H.
  apply andb_true_iff in H. destruct H as [Ha Hr]. rewrite Ha. now apply IH.
Qed.

Lemma TrimSpace_blank (s : string) : blank s = true -> strings.TrimSpace s = "".
Proof.
  intro H. unfold strings.TrimSpace. rewrite (trimLeft_blank false s H). reflexivity.
Qed.

(** C6: in the interactive loop every line that ReadLine returns is trimmed;
    a line that is empty once trimmed (a line of white space is) is dropped:
    the iteration does nothing but the read, and the loop goes on.  So every
    line that Execute is given in an interactive session is the trimmed form
    of a line read, and is not empty. *)
Theorem blank_lines_never_executed (E : Env) (w : World) :
  command w = "" ->
  (forall l, In (EvExecute l) (trace (finalState (run E w))) ->
     l <> "" /\
     exists r cmdline ex,
       In r (reads w) /\ ending r = Entered cmdline ex
       /\ l = strings.TrimSpace cmdline)
  /\ (forall evs cmdline ex rest s,
        strings.TrimSpace cmdline = "" ->
        readLoop E (mkRead evs (Entered cmdline ex) :: rest) s =
        bind (term_ReadLine E (mkRead evs (Entered cmdline ex)))
             (fun _ => readLoop E rest) s)
  /\ (forall cmdline, blank cmdline = true -> strings.TrimSpace cmdline = "").
Proof.
  intro Hc. split; [|split; [intros; now apply readLoop_blank | exact TrimSpace_blank]].
  change (onlyDispatched w (finalState (run E w))).
  apply (run_invariant E w (onlyDispatched w) (dispatched w)).
  - intros e s He Hs. eapply onlyDispatched_step; [reflexivity | | exact Hs].
    intros l ->. destruct He.
  - intros l s Hl Hs. eapply onlyDispatched_step; [reflexivity | | exact Hs].
    intros l' H. inversion H. subst. exact Hl.
  - intros c s _ Hs. eapply onlyDispatched_step; [reflexivity | | exact Hs].
    intros l H; discriminate H.
  - intros answer s _ Hs. destruct answer;
      (eapply onlyDispatched_step; [reflexivity | | exact Hs]); intros l H; discriminate H.
  - intros p s Hs. eapply onlyDispatched_step; [reflexivity | | exact Hs].
    intros l H; discriminate H.
  - intros p s. now apply onlyDispatched_same.
  - intros s Hs. eapply onlyDispatched_step; [reflexivity | | exact Hs].
    intros l H; discriminate H.
  - intros g s Hs. eapply onlyDispatched_step; [reflexivity | | exact Hs].
    intros l H; discriminate H.
  - intros s. now apply onlyDispatched_same.
  - intros r cmdline ex Hin Hend Hne. split; [exact Hne|]. now exists r, cmdline, ex.
  - intro Hne. now destruct Hne.
  - intros l [].
Qed.

Lemma blank_lines_never_executed_witness :
  ~ In (EvExecute "") (trace (finalState (run Demo.env (Demo.world "" Demo_reads))))
  /\ executed (trace (finalState (run Demo.env (Demo.world "" Demo_reads))))
     = ["show status"].
Proof.
  split; [|reflexivity]. intro H.
  destruct (blank_lines_never_executed Demo.env (Demo.world "" Demo_reads) eq_refl)
    as (Hall & _ & _).
  destruct (Hall "" H) as [Hne _]. apply Hne. reflexivity.
Defined.

(** ** The order of events in a trace *)

Lemma eachPreceded_nil (X : Event -> Prop) (y : Event) : eachPreceded X y [].
Proof. intros pre x post H. destruct pre; discriminate H. Qed.

Lemma eachPreceded_snoc (X : Event -> Prop) (y e : Event) (t : list Event) :
  eachPreceded X y t -> (X e -> In y t) -> eachPreceded X y (t ++ [e]).
Proof.
  intros Ht He pre x post Heq Hx.
  destruct post as [|z post'] using rev_ind.
  - apply app_inj_tail in Heq. destruct Heq as [<- <-]. now apply He.
  - clear IHpost'. rewrite app_comm_cons, app_assoc in Heq.
    apply app_inj_tail in Heq. destruct Heq as [Heq _].
    now apply (Ht pre x post' Heq).
Qed.

Lemma armed_same (s s' : State) :
  listening s' = listening s -> notified s' = notified s -> armed s -> armed s'.
Proof. unfold armed, handled. intros -> ->. auto. Qed.

Lemma listenerFirst_step (s s' : State) (e : Event) :
  trace s' = trace s ++ [e] -> ~ isMakeRaw e ->
  listening s' = listening s -> notified s' = notified s ->
  listenerFirst s -> listenerFirst s'.
Proof.
  intros Ht He Hl Hn (H1 & H2 & H3 & H4 & H5).
  unfold listenerFirst, handled. rewrite Ht, Hl, Hn.
  split; [|split; [|split; [|split]]].
  - apply eachPreceded_snoc; [exact H1 | intro; contradiction].
  - apply eachPreceded_snoc; [exact H2 | intro; contradiction].
  - intro H. apply in_or_app. left. now apply H3.
  - intro H. apply in_or_app. left. now apply H4.
  - intros [ok Hok]. apply in_snoc in Hok. destruct Hok as [Hok|Hok].
    + apply (armed_same s s' Hl Hn). apply H5. now exists ok.
    + exfalso. apply He. exists ok. now symmetry.
Qed.

Lemma listenerFirst_same (s s' : State) :
  trace s' = trace s -> listening s' = listening s -> notified s' = notified s ->
  listenerFirst s -> listenerFirst s'.
Proof.
  intros Ht Hl Hn (H1 & H2 & H3 & H4 & H5).
  unfold listenerFirst, handled. rewrite Ht, Hl, Hn.
  split; [exact H1|]. split; [exact H2|]. split; [exact H3|]. split; [exact H4|].
  intros Hx. apply (armed_same s s' Hl Hn). now apply H5.
Qed.

Lemma listenerFirst_makeRaw (E : Env) (answer : error) (s : State) :
  armed s -> listenerFirst s -> listenerFirst (finalState (terminal_MakeRaw E answer s)).
Proof.
  intros Ha (H1 & H2 & H3 & H4 & H5).
  assert (Hgo : In (EvGo GoSignalWait) (trace s)) by (apply H3, Ha).
  assert (Hno : In (EvNotify terminating) (trace s)) by (apply H4, Ha).
  destruct answer as [e|]; simpl; unfold listenerFirst; simpl;
    (split; [|split; [|split; [|split]]]);
    try (apply eachPreceded_snoc; [assumption | intros _; assumption]);
    try (intros _; apply in_or_app; left; assumption);
    intros _; exact Ha.
Qed.

Lemma listenerFirst_notify (s : State) :
  listenerFirst s -> listenerFirst (finalState (signal_Notify terminating s)).
Proof.
  intros (H1 & H2 & H3 & H4 & H5). unfold listenerFirst. simpl.
  split; [|split; [|split; [|split]]].
  - apply eachPreceded_snoc; [exact H1 | intros [ok H]; discriminate H].
  - apply eachPreceded_snoc; [exact H2 | intros [ok H]; discriminate H].
  - intro H. apply in_or_app. left. now apply H3.
  - intros _. apply in_or_app. right. now left.
  - intros [ok Hok]. apply in_snoc in Hok. destruct Hok as [Hok|Hok]; [|discriminate Hok].
    destruct (H5 (ex_intro _ ok Hok)) as (A1 & A2 & A3 & A4).
    unfold armed, handled in *. simpl. rewrite !existsb_app, A2, A3, A4. auto.
Qed.

Lemma listenerFirst_go (g : Goroutine) (s : State) :
  listenerFirst s -> listenerFirst (finalState (go g s)).
Proof.
  intros (H1 & H2 & H3 & H4 & H5). unfold listenerFirst. simpl.
  split; [|split; [|split; [|split]]].
  - apply eachPreceded_snoc; [exact H1 | intros [ok H]; discriminate H].
  - apply eachPreceded_snoc; [exact H2 | intros [ok H]; discriminate H].
  - destruct g.
    + intro H. apply in_or_app. left. now apply H3.
    + intros _. apply in_or_app. right. now left.
  - intro H. apply in_or_app. left. now apply H4.
  - intros [ok Hok]. apply in_snoc in Hok. destruct Hok as [Hok|Hok]; [|discriminate Hok].
    destruct (H5 (ex_intro _ ok Hok)) as (A1 & A2 & A3 & A4).
    unfold armed, handled in *. simpl. destruct g; auto.
Qed.

Lemma listenerFirst_run (E : Env) (w : World) : listenerFirst (finalState (run E w)).
Proof.
  apply (run_invariant E w listenerFirst (fun _ => True)).
  - intros e s He. apply (listenerFirst_step s _ e); try reflexivity.
    intros [ok ->]. exact He.
  - intros l s _. apply (listenerFirst_step s _ (EvExecute l)); try reflexivity.
    intros [ok H]. discriminate H.
  - intros c s _. apply (listenerFirst_step s _ (EvRestore c)); try reflexivity.
    intros [ok H]. discriminate H.
  - apply listenerFirst_makeRaw.
  - intros p s. apply (listenerFirst_step s _ (EvNewTerminal p)); try reflexivity.
    intros [ok H]. discriminate H.
  - intros p s. now apply listenerFirst_same.
  - apply listenerFirst_notify.
  - apply listenerFirst_go.
  - intros s. now apply listenerFirst_same.
  - trivial.
  - trivial.
  - unfold listenerFirst, initial, handled. simpl.
    split; [apply eachPreceded_nil|]. split; [apply eachPreceded_nil|].
    split; [discriminate|]. split; [discriminate|]. intros [ok []].
Qed.

Lemma deliver_armed (sig : Signal) (s : State) :
  armed s -> In sig terminating -> deliver sig s = exit s.
Proof.
  intros (Hl & H1 & H2 & H3) Hin. unfold deliver. rewrite bind_get.
  unfold handled in *.
  destruct Hin as [<-|[<-|[<-|[]]]]; rewrite ?H1, ?H2, ?H3, Hl; reflexivity.
Qed.

(** C8: in every run, a MakeRaw in the trace has before it the Notify for
    SIGINT, SIGQUIT and SIGTERM and the start of the goroutine that waits on
    the channel; and in the state the run has reached (the run may be cut
    after any event), each of the three signals is taken by that goroutine,
    which calls [exit]. *)
Theorem signal_listener_before_raw (E : Env) (w : World)
    (pre post : list Event) (ok : bool) :
  trace (finalState (run E w)) = pre ++ EvMakeRaw ok :: post ->
  In (EvNotify [SIGINT; SIGQUIT; SIGTERM]) pre
  /\ In (EvGo GoSignalWait) pre
  /\ forall sig, In sig [SIGINT; SIGQUIT; SIGTERM] ->
       deliver sig (finalState (run E w)) = exit (finalState (run E w)).
Proof.
  intro Ht. destruct (listenerFirst_run E w) as (H1 & H2 & _ & _ & H5).
  split; [|split].
  - apply (H1 pre (EvMakeRaw ok) post Ht). now exists ok.
  - apply (H2 pre (EvMakeRaw ok) post Ht). now exists ok.
  - intros sig Hsig. apply deliver_armed; [|exact Hsig].
    apply H5. exists ok. rewrite Ht. apply in_or_app. right. now left.
Qed.

Lemma signal_listener_before_raw_witness :
  In (EvNotify [SIGINT; SIGQUIT; SIGTERM]) Demo_started
  /\ In (EvGo GoSignalWait) Demo_started
  /\ deliver SIGTERM (finalState (run Demo.env (Demo.world "" []))) =
     exit (finalState (run Demo.env (Demo.world "" []))).
Proof.
  destruct (signal_listener_before_raw Demo.env (Demo.world "" []) Demo_started
              [EvNewTerminal "admin@lab> "; EvReadLine] true eq_refl)
    as (H1 & H2 & H3).
  split; [exact H1|]. split; [exact H2|]. apply H3. simpl. auto.
Defined.

(** ** Restores *)

Lemma restoreGuarded_step (s s' : State) (e : Event) :
  trace s' = trace s ++ [e] -> ~ isRestore e -> oldTermState s' = oldTermState s ->
  restoreGuarded s -> restoreGuarded s'.
Proof.
  intros Ht He Ho [H1 H2]. unfold restoreGuarded. rewrite Ht, Ho. split.
  - intros c Hc. apply in_or_app. left. exact (H1 c Hc).
  - apply eachPreceded_snoc; [exact H2 | intro; contradiction].
Qed.

Lemma restoreGuarded_same (s s' : State) :
  trace s' = trace s -> oldTermState s' = oldTermState s ->
  restoreGuarded s -> restoreGuarded s'.
Proof. intros Ht Ho [H1 H2]. unfold restoreGuarded. rewrite Ht, Ho. now split. Qed.

Lemma restoreGuarded_run (E : Env) (w : World) : restoreGuarded (finalState (run E w)).
Proof.
  apply (run_invariant E w restoreGuarded (fun _ => True)).
  - intros e s He. apply (restoreGuarded_step s _ e); try reflexivity.
    intros [c ->]. exact He.
  - intros l s _. apply (restoreGuarded_step s _ (EvExecute l)); try reflexivity.
    intros [c H]. discriminate H.
  - intros c s Hc [H1 H2]. split; simpl.
    + intros c' Hc'. apply in_or_app. left. exact (H1 c' Hc').
    + apply eachPreceded_snoc; [exact H2 | intros _; exact (H1 c Hc)].
  - intros answer s _ [H1 H2]. destruct answer as [e|]; split; simpl.
    + intros c H. discriminate H.
    + apply eachPreceded_snoc; [exact H2 | intros [c H]; discriminate H].
    + intros c _. apply in_or_app. right. now left.
    + apply eachPreceded_snoc; [exact H2 | intros [c H]; discriminate H].
  - intros p s. apply (restoreGuarded_step s _ (EvNewTerminal p)); try reflexivity.
    intros [c H]. discriminate H.
  - intros p s. now apply restoreGuarded_same.
  - intros s. apply (restoreGuarded_step s _ (EvNotify terminating)); try reflexivity.
    intros [c H]. discriminate H.
  - intros g s. apply (restoreGuarded_step s _ (EvGo g)); try reflexivity.
    intros [c H]. discriminate H.
  - intros s. now apply restoreGuarded_same.
  - trivial.
  - trivial.
  - split; [intros c H; discriminate H | apply eachPreceded_nil].
Qed.

(** When a configuration is saved, the three paths give it back. *)
Lemma saved_is_restored (s : State) (c : Termios) (msg : string) :
  oldTermState s = Some c ->
  tty (finalState (@exit unit s)) = c
  /\ tty (finalState (@fatalf unit msg s)) = c
  /\ tty (finalState (suspend s)) = c.
Proof.
  intro H. rewrite exit_eq, fatalf_eq, suspend_eq. simpl.
  rewrite (restoreSaved_Some s c H). now repeat split.
Qed.

(** C10: [exit], [fatalf] and [suspend] call Restore only when a
    configuration is saved.  With none saved they leave the terminal alone:
    [exit] prints a line feed and ends the process with status 0, [fatalf]
    writes its message and ends it with status 1, [suspend] starts the
    resume goroutine and stops the process.  In every run a configuration is
    saved only after a MakeRaw that succeeded, and every Restore in the
    trace has such a MakeRaw before it. *)
Theorem restore_only_after_capture (E : Env) (w : World) (s : State) (msg : string) :
  oldTermState s = None ->
  @exit unit s = Exited 0 (after s [EvStdout nl])
  /\ @fatalf unit msg s = Exited 1 (after s [EvStderr msg; EvStderr nl])
  /\ suspend s = Ret tt (after (resumeStarted s) [EvKill SIGTSTP])
  /\ (forall pre c post,
        trace (finalState (run E w)) = pre ++ EvRestore c :: post ->
        In (EvMakeRaw true) pre)
  /\ (forall c, oldTermState (finalState (run E w)) = Some c ->
        In (EvMakeRaw true) (trace (finalState (run E w)))).
Proof.
  intro H. rewrite exit_eq, fatalf_eq, suspend_eq, (restoreSaved_None s H).
  destruct (restoreGuarded_run E w) as [H1 H2].
  repeat split; try reflexivity.
  - intros pre c post Ht. apply (H2 pre (EvRestore c) post Ht). now exists c.
  - exact H1.
Qed.

Lemma restore_only_after_capture_witness :
  @exit unit (initial (Demo.world "" [])) =
    Exited 0 (after (initial (Demo.world "" [])) [EvStdout nl])
  /\ suspend (initial (Demo.world "" [])) =
    Ret tt (after (resumeStarted (initial (Demo.world "" []))) [EvKill SIGTSTP]).
Proof.
  destruct (restore_only_after_capture Demo.env (Demo.world "" [])
              (initial (Demo.world "" [])) "" eq_refl) as (H1 & _ & H3 & _).
  split; [exact H1 | exact H3].
Defined.

(** ** Suspending twice

    C1 fails on the code.  [resume] calls [terminalInit], which saves the
    configuration in force again.  When Ctrl-Z is handled twice before the
    first resume goroutine has run, the second resume finds the terminal
    raw and saves that; every way out then restores the raw configuration,
    and the terminal is left raw when the process has ended. *)
Theorem suspended_twice_left_raw :
  termios (Demo_twice [] (ReadErr "EOF")) = Demo.cooked
  /\ Demo.raw Demo.cooked <> Demo.cooked
  /\ exitStatus (run Demo.env (Demo_twice [] (ReadErr "EOF"))) = Some 0
  /\ tty (finalState (run Demo.env (Demo_twice [] (ReadErr "EOF")))) =
     Demo.raw Demo.cooked
  /\ tty (finalState (run Demo.env (Demo_twice [Sig SIGINT] Waiting))) =
     Demo.raw Demo.cooked
  /\ tty (finalState (run Demo.env (Demo_twice [Sig SIGQUIT] Waiting))) =
     Demo.raw Demo.cooked
  /\ tty (finalState (run Demo.env (Demo_twice [Sig SIGTERM] Waiting))) =
     Demo.raw Demo.cooked
  /\ tty (finalState (run Demo.env (Demo_twice [Key "" 0 0x03] Waiting))) =
     Demo.raw Demo.cooked
  /\ tty (finalState (run Demo.env (Demo_twice [] (Entered "quit" Quit)))) =
     Demo.raw Demo.cooked
  /\ tty (finalState (run Demo.env (Demo_twice [Wake (Some "EIO")] Waiting))) =
     Demo.raw Demo.cooked.
Proof.
  split; [reflexivity|]. split; [intro H; discriminate H|].
  repeat split; reflexivity.
Qed.

(** The same for every environment and every start that succeeds: after
    Ctrl-Z twice and both resumes, the end of the input leaves the terminal
    in the raw form of its first configuration. *)
Lemma suspended_twice_any_environment (E : Env) (w : World)
    (st : ClusterStatus) (u : string) (ha : Z) (e : string) :
  command w = "" -> newSeesawIPC w = None -> dial w = None ->
  clusterStatus w = Ok st -> userCurrent w = Ok u -> haStatus w = Ok ha ->
  rawAtStart w = None ->
  reads w = [mkRead Demo.suspendedTwice (ReadErr e)] ->
  exitStatus (run E w) = Some 0
  /\ oldTermState (finalState (run E w)) = Some (makeRaw E (termios w))
  /\ tty (finalState (run E w)) = makeRaw E (termios w).
Proof.
  intros Hc Hn Hd Hs Hu Hh Hr Hreads.
  rewrite (main_interactive E w st u ha Hc Hn Hd Hs Hu Hh), Hr, Hreads.
  rewrite (bind_Ret _ _ _ _ _ (terminalInit_ok E _)).
  repeat split.
Qed.

(** ** Sessions without nested suspends

    Here each handler runs to its end before the next starts.  When Ctrl-Z
    is never handled while a resume goroutine still waits, every exit then
    gives the terminal the configuration it had at the start.  In a calm
    session no handler that sets the terminal starts while another that
    does is still to run or running. *)

Lemma settled_after (E : Env) (c0 : Termios) (n : nat) (s : State) (evs : list Event) :
  settled E c0 n s -> settled E c0 n (after s evs).
Proof. intro H. exact H. Qed.

Lemma settled_restored (E : Env) (c0 : Termios) (n : nat) (s : State) (evs : list Event) :
  settled E c0 n s -> tty (after (restoreSaved s) evs) = c0.
Proof.
  intros (_ & Ho & _). rewrite (restoreSaved_Some s c0 Ho). reflexivity.
Qed.

Lemma settles_bind (E : Env) (c0 : Termios) {A B} (n n' : nat)
    (m : M A) (k : A -> M B) (s : State) :
  settles E c0 n (m s) ->
  (forall a s', settled E c0 n s' -> settles E c0 n' (k a s')) ->
  settles E c0 n' (bind m k s).
Proof.
  intros Hm Hk. unfold bind. destruct (m s); simpl in *; auto.
Qed.

Lemma settles_exit (E : Env) (c0 : Termios) {A} (n n' : nat) (s : State) :
  settled E c0 n s -> settles E c0 n' (@exit A s).
Proof. intro H. rewrite exit_eq. exact (settled_restored E c0 n s _ H). Qed.

Lemma slice0_out_of_range (line : string) (pos : Z) (s : State) :
  ~ 0 <= pos <= len line -> slice0 line pos s = Panicked s.
Proof.
  intro H. unfold slice0.
  destruct ((0 <=? pos) && (pos <=? len line))%bool eqn:Hb; [|reflexivity].
  apply andb_true_iff in Hb. destruct Hb as [H0 H1].
  apply Z.leb_le in H0. apply Z.leb_le in H1. exfalso. apply H. now split.
Qed.

Lemma autoComplete_settles (E : Env) (c0 : Termios) (n : nat)
    (line : string) (pos key : Z) (s : State) :
  key <> 0x1a -> settled E c0 n s ->
  settles E c0 n (autoComplete E line pos key s).
Proof.
  intros Hk Hs. destruct (Z.eq_dec key 63) as [->|H63].
  - destruct (Z_le_dec 0 pos) as [H0|H0]; [destruct (Z_le_dec pos (len line)) as [H1|H1]|].
    + rewrite (autoComplete_help E line pos s (conj H0 H1)). exact Hs.
    + unfold autoComplete. cbn [Z.eqb Pos.eqb].
      unfold bind at 1. rewrite slice0_out_of_range by lia. exact Logic.I.
    + unfold autoComplete. cbn [Z.eqb Pos.eqb].
      unfold bind at 1. rewrite slice0_out_of_range by lia. exact Logic.I.
  - unfold autoComplete.
    destruct (key =? 1); [exact Hs|].
    destruct (key =? 3); [now apply (settles_exit E c0 n)|].
    destruct (key =? 5); [exact Hs|].
    destruct (key =? 9); [exact Hs|].
    destruct (key =? 21); [exact Hs|].
    destruct (key =? 26) eqn:H26; [apply Z.eqb_eq in H26; contradiction|].
    destruct (key =? 63) eqn:H63'; [apply Z.eqb_eq in H63'; contradiction|].
    exact Hs.
Qed.

Lemma async_settles (E : Env) (c0 : Termios) (n : nat) (a : Async) (s : State) :
  settled E c0 n s -> unnested n a = true ->
  settles E c0 (pendingStep n a) (async E a s).
Proof.
  intros Hs Hu. destruct a as [line pos key|sig|answer]; simpl in *.
  - destruct (key =? 26) eqn:Hk.
    + apply Z.eqb_eq in Hk. subst key. apply Nat.eqb_eq in Hu. subst n.
      destruct Hs as (Hr & Ho & Ht).
      unfold autoComplete. cbn [Z.eqb Pos.eqb]. mrun. unfold ret. simpl.
      rewrite (restoreSaved_Some s c0 Ho). simpl. rewrite Hr. now repeat split.
    + apply Z.eqb_neq in Hk.
      apply (settles_bind E c0 n n (autoComplete E line pos key)).
      * now apply autoComplete_settles.
      * intros _ s' Hs'. exact Hs'.
  - unfold deliver. rewrite bind_get.
    destruct (existsb (Signal_eqb sig) (notified s)).
    + destruct (listening s); [now apply (settles_exit E c0 n) | exact Hs].
    + destruct sig; try exact Logic.I. exact Hs.
  - rewrite bind_get. destruct Hs as (Hr & Ho & Ht). rewrite Hr.
    destruct n as [|[|n]]; [now repeat split| |destruct Ht].
    unfold resume. mrun. rewrite terminalInit_eq.
    destruct answer as [e|]; simpl.
    + exact Ht.
    + rewrite Hr, Ht. now repeat split.
Qed.

Lemma forEach_settles (E : Env) (c0 : Termios) (evs : list Async) (n : nat) (s : State) :
  settled E c0 n s -> serialAsyncs n evs = true ->
  settles E c0 (fold_left pendingStep evs n) (forEach evs (async E) s).
Proof.
  revert n s. induction evs as [|a rest IH]; intros n s Hs Hse.
  - exact Hs.
  - simpl in Hse. apply andb_true_iff in Hse. destruct Hse as [Hu Hrest].
    simpl forEach. simpl fold_left.
    apply (settles_bind E c0 (pendingStep n a) _ (async E a)).
    + now apply async_settles.
    + intros _ s' Hs'. now apply IH.
Qed.

Lemma settlesAny_of (E : Env) (c0 : Termios) {A} (n : nat) (o : Outcome A) :
  settles E c0 n o -> settlesAny E c0 o.
Proof. destruct o; simpl; auto. intro H. now exists n. Qed.

Lemma settlesAny_bind (E : Env) (c0 : Termios) {A B} (n : nat)
    (m : M A) (k : A -> M B) (s : State) :
  settles E c0 n (m s) ->
  (forall a s', settled E c0 n s' -> settlesAny E c0 (k a s')) ->
  settlesAny E c0 (bind m k s).
Proof.
  intros Hm Hk. unfold bind. destruct (m s); simpl in *; auto.
Qed.

Lemma settlesAny_exit (E : Env) (c0 : Termios) {A} (n : nat) (s : State) :
  settled E c0 n s -> settlesAny E c0 (@exit A s).
Proof. intro H. rewrite exit_eq. exact (settled_restored E c0 n s _ H). Qed.

Lemma readLoop_settles (E : Env) (c0 : Termios) (rs : list Read) (n : nat) (s : State) :
  settled E c0 n s -> serialReads n rs = true ->
  settlesAny E c0 (readLoop E rs s).
Proof.
  revert n s. induction rs as [|r rest IH]; intros n s Hs Hse.
  - exact Logic.I.
  - simpl in Hse. apply andb_true_iff in Hse. destruct Hse as [Hd Hrest].
    simpl readLoop. unfold term_ReadLine.
    rewrite bind_assoc, bind_emit. cbv beta. rewrite bind_assoc.
    apply (settlesAny_bind E c0 (fold_left pendingStep (during r) n)).
    + now apply forEach_settles.
    + intros u s1 Hf. rewrite bind_ret.
      destruct (ending r) as [cmdline ex|e|].
      * destruct (String.eqb (strings.TrimSpace cmdline) "").
        -- now apply (IH _ s1 Hf).
        -- unfold seesawCLI_Execute. rewrite !bind_assoc, bind_emit.
           destruct ex.
           ++ rewrite !bind_ret. eapply IH; [exact Hf | exact Hrest].
           ++ rewrite !bind_ret. unfold fmt_Print. rewrite bind_emit.
              eapply IH; [exact Hf | exact Hrest].
           ++ rewrite bind_exit.
              exact (settled_restored E c0 _ (after s1 _) _ Hf).
      * now exists (fold_left pendingStep (during r) n).
      * exact Logic.I.
Qed.

Lemma settlesAny_then_exit (E : Env) (c0 : Termios) {A B} (m : M A) (s : State) :
  settlesAny E c0 (m s) -> settlesAny E c0 (bind m (fun _ => @exit B) s).
Proof.
  unfold bind. destruct (m s) as [a s'| | | |]; simpl; auto.
  intros [n Hn]. now apply (settlesAny_exit E c0 n).
Qed.

Lemma terminalInit_settles (E : Env) (answer : error) (s : State) :
  oldTermState s = None -> resumes s = 0%nat ->
  settles E (tty s) 0 (terminalInit E answer s).
Proof.
  intros Ho Hr. rewrite terminalInit_eq. destruct answer as [e|]; simpl.
  - reflexivity.
  - now repeat split.
Qed.

Ltac mplain :=
  repeat (first [ rewrite bind_emit | rewrite bind_ret | mprim ]; cbv beta).

Lemma exitsWith_settlesAny (E : Env) (c0 : Termios) {A} (o : Outcome A) :
  settlesAny E c0 o -> exitsWith c0 o.
Proof. destruct o; simpl; auto. Qed.

Lemma run_settles (E : Env) (w : World) :
  serialReads 0 (reads w) = true -> exitsWith (termios w) (run E w).
Proof.
  intro Hse. unfold run, main. mplain.
  destruct (newSeesawIPC w); [rewrite bind_fatalf; reflexivity|]. mplain.
  destruct (dial w); [rewrite bind_fatalf; reflexivity|]. mplain.
  destruct (String.eqb (command w) "") eqn:Hc; unfold when.
  - rewrite bind_assoc, bind_then_exit.
    apply (exitsWith_settlesAny E), settlesAny_then_exit.
    unfold interactive, orFatal, fmt_Print. mplain.
    destruct (clusterStatus w) as [st|e]; [|rewrite bind_fatalf; reflexivity]. mplain.
    destruct (userCurrent w) as [u|e]; [|rewrite bind_fatalf; reflexivity]. mplain.
    destruct (haStatus w) as [ha|e]; [|rewrite bind_fatalf; reflexivity]. mplain.
    unfold when. destruct (negb (ha =? HAMaster E)); mplain;
      (eapply (settlesAny_bind E (termios w) 0%nat);
       [ apply (terminalInit_settles E (rawAtStart w)); reflexivity
       | intros _ s' Hs'; now apply (readLoop_settles E (termios w) (reads w) 0%nat) ]).
  - mplain. unfold seesawCLI_Execute. rewrite bind_assoc. mplain.
    destruct (oneShot w); mplain.
    + exact Logic.I.
    + rewrite bind_fatalf. reflexivity.
    + rewrite bind_exit. reflexivity.
Qed.

(** With the handlers run one at a time, as [async] runs them: in a session
    where Ctrl-Z is never handled while a resume goroutine waits, an exit
    leaves the terminal with the configuration it had at the start. *)
Lemma unnested_suspends_restore_start (E : Env) (w : World) (code : Z) (s : State) :
  serialReads 0 (reads w) = true ->
  run E w = Exited code s ->
  tty s = termios w.
Proof.
  intros Hse Hrun. pose proof (run_settles E w Hse) as H.
  rewrite Hrun in H. exact H.
Qed.

Lemma quiet_unnested (n : nat) (a : Async) : quiet n a = true -> unnested n a = true.
Proof.
  destruct a as [l p key|sig|answer]; simpl; try reflexivity; try discriminate.
  destruct (key =? 0x1a); simpl; [intro H; exact H | reflexivity].
Qed.

Lemma calmAsyncs_serial (evs : list Async) (n : nat) :
  calmAsyncs n evs = true -> serialAsyncs n evs = true.
Proof.
  revert n. induction evs as [|a rest IH]; intros n H; [reflexivity|].
  simpl in *. apply andb_true_iff in H. destruct H as [Ha Hr].
  apply andb_true_iff. split; [now apply quiet_unnested | now apply IH].
Qed.

Lemma calmReads_serial (rs : list Read) (n : nat) :
  calmReads n rs = true -> serialReads n rs = true.
Proof.
  revert n. induction rs as [|r rest IH]; intros n H; [reflexivity|].
  simpl in *. apply andb_true_iff in H. destruct H as [H Hr].
  apply andb_true_iff in H. destruct H as [Ha _].
  apply andb_true_iff. split; [now apply calmAsyncs_serial | now apply IH].
Qed.

(** X12 (restore): in a calm session, that is one where no terminating
    signal arrives and where Ctrl-Z, Ctrl-C, the quit command and the end of
    the input are each handled while no resume goroutine waits, every exit
    of the process leaves the terminal with the configuration it had when
    the process started. *)
Theorem calm_session_restores_start (E : Env) (w : World) (code : Z) (s : State) :
  calmReads 0 (reads w) = true ->
  run E w = Exited code s ->
  tty s = termios w.
Proof.
  intros Hc Hrun.
  apply (unnested_suspends_restore_start E w code s); [|exact Hrun].
  apply calmReads_serial. exact Hc.
Qed.

Lemma calm_session_restores_start_witness :
  tty (finalState (run Demo.env (Demo.world "" Demo_serial))) =
  termios (Demo.world "" Demo_serial).
Proof.
  apply (calm_session_restores_start Demo.env (Demo.world "" Demo_serial) 0
           (finalState (run Demo.env (Demo.world "" Demo_serial)))).
  - vm_compute. reflexivity.
  - vm_compute. reflexivity.
Defined.

(** * Further properties of the program *)

(** ** What autoComplete gives back *)

Lemma len_nonneg (s : string) : 0 <= len s.
Proof. unfold len. lia. Qed.

(** The key is none of those the switch of [autoComplete] names. *)
Lemma autoComplete_default (E : Env) (line : string) (pos key : Z) (s : State) :
  key <> 0x01 -> key <> 0x03 -> key <> 0x05 -> key <> 0x09 -> key <> 0x15 ->
  key <> 0x1a -> key <> 63 ->
  autoComplete E line pos key s = Ret ("", 0, false) s.
Proof.
  intros H1 H3 H5 H9 H21 H26 H63. unfold autoComplete.
  apply Z.eqb_neq in H1, H3, H5, H9, H21, H26, H63.
  now rewrite H1, H3, H5, H9, H21, H26, H63.
Qed.

Lemma autoComplete_suspend (E : Env) (line : string) (pos : Z) (s : State) :
  autoComplete E line pos 0x1a s =
  Ret ("", 0, false) (after (resumeStarted (restoreSaved s)) [EvKill SIGTSTP]).
Proof.
  unfold autoComplete. cbn [Z.eqb Pos.eqb]. now rewrite bind_suspend.
Qed.

Lemma autoComplete_help_panics (E : Env) (line : string) (pos : Z) (s : State) :
  ~ 0 <= pos <= len line -> autoComplete E line pos 63 s = Panicked s.
Proof.
  intro H. unfold autoComplete. cbn [Z.eqb Pos.eqb].
  unfold bind at 1. now rewrite slice0_out_of_range.
Qed.

(** The ways [autoComplete] can go, key by key. *)
Lemma autoComplete_cases (E : Env) (line : string) (pos key : Z) (s : State) :
  (key = 0x01 /\ autoComplete E line pos key s = Ret (line, 0, true) s)
  \/ (key = 0x03 /\ autoComplete E line pos key s =
                    Exited 0 (after (restoreSaved s) [EvStdout nl]))
  \/ (key = 0x05 /\ autoComplete E line pos key s = Ret (line, len line, true) s)
  \/ (key = 0x09 /\ autoComplete E line pos key s =
        Ret (commandChain (cli.chain (FindCommand E line)) (cli.args (FindCommand E line)),
             len (commandChain (cli.chain (FindCommand E line))
                               (cli.args (FindCommand E line))),
             true)
            (after s [EvFindCommand line]))
  \/ (key = 0x15 /\ autoComplete E line pos key s = Ret ("", 0, true) s)
  \/ (key = 0x1a /\ autoComplete E line pos key s =
        Ret ("", 0, false) (after (resumeStarted (restoreSaved s)) [EvKill SIGTSTP]))
  \/ (key = 63 /\ 0 <= pos <= len line /\
      exists l evs, autoComplete E line pos key s = Ret (l, len l, true) (after s evs)
                    /\ (forall e, In e evs ->
                          (exists q, e = EvFindCommand q) \/ (exists b, e = EvTermWrite b)))
  \/ (key = 63 /\ ~ 0 <= pos <= len line /\ autoComplete E line pos key s = Panicked s)
  \/ (key <> 0x01 /\ key <> 0x03 /\ key <> 0x05 /\ key <> 0x09 /\ key <> 0x15
      /\ key <> 0x1a /\ key <> 63
      /\ autoComplete E line pos key s = Ret ("", 0, false) s).
Proof.
  destruct (Z.eq_dec key 1) as [->|H1]; [left; split; reflexivity|].
  destruct (Z.eq_dec key 3) as [->|H3].
  { right; left. split; [reflexivity|]. unfold autoComplete. cbn [Z.eqb Pos.eqb].
    apply exit_eq. }
  destruct (Z.eq_dec key 5) as [->|H5]; [do 2 right; left; split; reflexivity|].
  destruct (Z.eq_dec key 9) as [->|H9]; [do 3 right; left; split; reflexivity|].
  destruct (Z.eq_dec key 21) as [->|H21]; [do 4 right; left; split; reflexivity|].
  destruct (Z.eq_dec key 26) as [->|H26].
  { do 5 right; left. split; [reflexivity | apply autoComplete_suspend]. }
  destruct (Z.eq_dec key 63) as [->|H63].
  - destruct (Z_le_dec 0 pos) as [H0|H0];
      [destruct (Z_le_dec pos (len line)) as [Hl|Hl]|].
    + do 6 right; left. split; [reflexivity|]. split; [now split|].
      rewrite (autoComplete_help E line pos s (conj H0 Hl)). cbv zeta.
      eexists. eexists. split; [reflexivity|].
      intros ev Hin. apply in_app_or in Hin. destruct Hin as [[Hin|[]]|Hin];
        [left; eexists; symmetry; exact Hin|].
      right. apply in_app_or in Hin. destruct Hin as [Hin|Hin].
      * destruct (isNil _); simpl in Hin;
          repeat (destruct Hin as [Hin|Hin]; [eexists; symmetry; exact Hin|]);
          destruct Hin.
      * destruct (cli.subcmds _) as [cs|].
        -- unfold candidateLines in Hin. apply in_flat_map in Hin.
           destruct Hin as (x & _ & Hx). simpl in Hx.
           repeat (destruct Hx as [Hx|Hx]; [eexists; symmetry; exact Hx|]);
           destruct Hx.
        -- destruct (isNil _); simpl in Hin;
             repeat (destruct Hin as [Hin|Hin]; [eexists; symmetry; exact Hin|]);
             destruct Hin.
    + do 7 right; left. split; [reflexivity|]. split; [lia|].
      apply autoComplete_help_panics. lia.
    + do 7 right; left. split; [reflexivity|]. split; [lia|].
      apply autoComplete_help_panics. lia.
  - do 8 right. repeat (split; [assumption|]). now apply autoComplete_default.
Qed.

(** X1 (cursor): whenever [autoComplete] returns, whatever the key, the
    cursor it returns lies within the line it returns. *)
Theorem autoComplete_cursor_in_line (E : Env) (line : string) (pos key : Z) (s s' : State)
    (l : string) (p : Z) (ok : bool) :
  autoComplete E line pos key s = Ret (l, p, ok) s' ->
  0 <= p <= len l.
Proof.
  intro H.
  destruct (autoComplete_cases E line pos key s)
    as [[_ Hc]|[[_ Hc]|[[_ Hc]|[[_ Hc]|[[_ Hc]|[[_ Hc]|[(_ & _ & l0 & evs & Hc & _)
       |[(_ & _ & Hc)|(_ & _ & _ & _ & _ & _ & _ & Hc)]]]]]]]];
    rewrite Hc in H; try discriminate H; inversion H; subst;
    (split; [try lia; apply len_nonneg | try lia; try apply len_nonneg]);
    unfold len; simpl; lia.
Qed.

Lemma autoComplete_cursor_in_line_witness : 0 <= 12 <= len "show status ".
Proof.
  apply (autoComplete_cursor_in_line Demo.env "sh st" 2 0x09 Demo.editing
           (after Demo.editing [EvFindCommand "sh st"]) "show status " 12 true).
  reflexivity.
Defined.

(** X2 (panic): [autoComplete] panics exactly when the key is the help key
    and the cursor is outside the line; no other key looks at the cursor. *)
Theorem autoComplete_panics_iff (E : Env) (line : string) (pos key : Z) (s : State) :
  (exists s', autoComplete E line pos key s = Panicked s')
  <-> key = 63 /\ ~ 0 <= pos <= len line.
Proof.
  split.
  - intros [s' H].
    destruct (autoComplete_cases E line pos key s)
      as [[_ Hc]|[[_ Hc]|[[_ Hc]|[[_ Hc]|[[_ Hc]|[[_ Hc]|[(_ & _ & l0 & evs & Hc & _)
         |[(Hk & Hp & Hc)|(_ & _ & _ & _ & _ & _ & _ & Hc)]]]]]]]];
      rewrite Hc in H; try discriminate H. now split.
  - intros [-> Hp]. exists s. now apply autoComplete_help_panics.
Qed.

Lemma written_app (a b : list Event) : written (a ++ b) = written a ++ written b.
Proof.
  induction a as [|e a IH]; [reflexivity|]. destruct e; simpl; now rewrite ?IH.
Qed.

Lemma written_restoreSaved (s : State) :
  written (trace (restoreSaved s)) = written (trace s).
Proof.
  unfold restoreSaved. destruct (oldTermState s); [|reflexivity].
  simpl. rewrite written_app. simpl. now rewrite app_nil_r.
Qed.

(** X3 (output): only the help key writes through the line editor; for
    every other key, however [autoComplete] ends, what has been written
    through the editor is what had been written before. *)
Theorem only_help_key_writes (E : Env) (line : string) (pos key : Z) (s : State) :
  key <> 63 ->
  written (trace (finalState (autoComplete E line pos key s))) = written (trace s).
Proof.
  intro Hk.
  destruct (autoComplete_cases E line pos key s)
    as [[_ Hc]|[[_ Hc]|[[_ Hc]|[[_ Hc]|[[_ Hc]|[[_ Hc]|[(Hc & _)
       |[(Hc & _)|(_ & _ & _ & _ & _ & _ & _ & Hc)]]]]]]]];
    try contradiction; rewrite Hc; simpl; try reflexivity;
    rewrite ?written_app, ?written_restoreSaved; simpl;
    rewrite ?app_nil_r, ?written_app, ?written_restoreSaved; simpl;
    now rewrite ?app_nil_r.
Qed.

Lemma only_help_key_writes_witness :
  written (trace (finalState (autoComplete Demo.env "sh st" 2 0x09 Demo.editing))) =
  written (trace Demo.editing).
Proof.
  apply (only_help_key_writes Demo.env "sh st" 2 0x09 Demo.editing).
  intro H. discriminate H.
Defined.

(** X4 (terminal mode): no key but Ctrl-C and Ctrl-Z touches the terminal:
    for every other key the configuration of the terminal, the saved
    configuration and the resume goroutines are as before, and what is added
    to the trace holds no Restore. *)
Theorem only_interrupt_and_suspend_touch_terminal
    (E : Env) (line : string) (pos key : Z) (s : State) :
  key <> 0x03 -> key <> 0x1a ->
  exists evs,
    finalState (autoComplete E line pos key s) = after s evs
    /\ (forall c, ~ In (EvRestore c) evs)
    /\ (forall ok, ~ In (EvMakeRaw ok) evs).
Proof.
  intros H3 H26.
  destruct (autoComplete_cases E line pos key s)
    as [[_ Hc]|[[Hk _]|[[_ Hc]|[[_ Hc]|[[_ Hc]|[[Hk _]|[(_ & _ & l0 & evs & Hc & Hev)
       |[(_ & _ & Hc)|(_ & _ & _ & _ & _ & _ & _ & Hc)]]]]]]]];
    try contradiction; rewrite Hc; simpl.
  - exists []. split; [now rewrite after_nil|]. split; notin.
  - exists []. split; [now rewrite after_nil|]. split; notin.
  - exists [EvFindCommand line]. split; [reflexivity|]. split; notin.
  - exists []. split; [now rewrite after_nil|]. split; notin.
  - exists evs. split; [reflexivity|]. split.
    + intros c Hin. destruct (Hev _ Hin) as [[q Hq]|[b Hb]]; discriminate.
    + intros ok Hin. destruct (Hev _ Hin) as [[q Hq]|[b Hb]]; discriminate.
  - exists []. split; [now rewrite after_nil|]. split; notin.
  - exists []. split; [now rewrite after_nil|]. split; notin.
Qed.

Lemma only_interrupt_and_suspend_touch_terminal_witness :
  exists evs,
    finalState (autoComplete Demo.env "s x" 1 63 Demo.editing) = after Demo.editing evs
    /\ (forall c, ~ In (EvRestore c) evs)
    /\ (forall ok, ~ In (EvMakeRaw ok) evs).
Proof.
  apply (only_interrupt_and_suspend_touch_terminal Demo.env "s x" 1 63 Demo.editing);
    intro H; discriminate H.
Defined.

(** ** Suspend and resume *)

(** X5 (round trip): in a raw session with no resume waiting, Ctrl-Z
    followed by the wake-up of the resume goroutine brings the session back
    where it was: the terminal raw again, the same configuration saved, the
    same prompt on a new line editor.  In between the terminal had its saved
    configuration back and the process had stopped itself. *)
Theorem suspend_resume_round_trip (E : Env) (s : State) (c0 : Termios)
    (line : string) (pos : Z) :
  oldTermState s = Some c0 -> tty s = makeRaw E c0 -> resumes s = 0%nat ->
  forEach [Key line pos 0x1a; Wake None] (async E) s =
  Ret tt (mkState (tty s) (oldTermState s) (prompt s) (Some (prompt s))
                  (notified s) (listening s) 0%nat
                  (trace s ++ [EvRestore c0; EvGo GoResume; EvKill SIGTSTP;
                               EvSleep 1; EvStdout ("resuming..." ++ nl);
                               EvMakeRaw true; EvNewTerminal (prompt s)])).
Proof.
  intros Ho Ht Hr. simpl forEach. unfold async.
  rewrite bind_assoc, (bind_Ret _ _ _ _ _ (autoComplete_suspend E line pos s)).
  rewrite (restoreSaved_Some s c0 Ho). mrun.
  simpl resumes. rewrite Hr. mrun. unfold resume. mrun.
  rewrite (bind_Ret _ _ _ _ _ (terminalInit_ok E _)). unfold ret. simpl.
  rewrite Ho, Ht, ?Hr, <- !app_assoc. reflexivity.
Qed.

Lemma suspend_resume_round_trip_witness :
  forEach [Key "sh" 2 0x1a; Wake None] (async Demo.env) Demo.editing =
  Ret tt (mkState (tty Demo.editing) (oldTermState Demo.editing) "admin@lab> "
                  (Some "admin@lab> ") [SIGINT; SIGQUIT; SIGTERM] true 0%nat
                  [EvRestore Demo.cooked; EvGo GoResume; EvKill SIGTSTP;
                   EvSleep 1; EvStdout ("resuming..." ++ nl);
                   EvMakeRaw true; EvNewTerminal "admin@lab> "]).
Proof.
  apply (suspend_resume_round_trip Demo.env Demo.editing Demo.cooked "sh" 2);
    reflexivity.
Defined.

(** ** The start of the process *)

Lemma stderr_app (a b : list Event) : stderr (a ++ b) = (stderr a ++ stderr b)%string.
Proof.
  induction a as [|e a IH]; [reflexivity|].
  destruct e; simpl; rewrite ?IH, ?append_assoc; reflexivity.
Qed.

(** [main] when the engine cannot be reached. *)
Lemma main_no_connection (E : Env) (w : World) (e : string) :
  connectError w = Some e ->
  run E w =
  Exited 1 (after (initial w)
              (EvNewSeesawIPC
               :: match newSeesawIPC w with
                  | Some _ => []
                  | None => [EvDial (engineSocket w)]
                  end
               ++ [EvStderr ("Failed to connect to engine: " ++ e); EvStderr nl])).
Proof.
  unfold connectError, run, main. intro H.
  destruct (newSeesawIPC w) as [e'|].
  - injection H as <-. mrun. reflexivity.
  - rewrite H. mrun. reflexivity.
Qed.

(** [main] without a command when the session cannot start. *)
Lemma main_startup_fails (E : Env) (w : World) (msg : string) :
  command w = "" -> connectError w = None -> startupError w = Some msg ->
  run E w =
  Exited 1 (after (initial w)
              ([EvNewSeesawIPC; EvDial (engineSocket w); EvClusterStatus]
               ++ match clusterStatus w with
                  | Err _ => []
                  | Ok st =>
                      [EvStdout (banner (Version st)); EvUserCurrent]
                      ++ match userCurrent w with
                         | Err _ => []
                         | Ok _ => [EvHAStatus]
                         end
                  end
               ++ [EvStderr msg; EvStderr nl])).
Proof.
  unfold connectError, startupError, run, main. intros Hc Hn Hs.
  destruct (newSeesawIPC w); [discriminate Hn|]. rewrite Hn, Hc.
  change (String.eqb "" "") with true. unfold when at 1. mplain.
  rewrite bind_assoc, bind_then_exit. unfold interactive, orFatal, fmt_Print.
  mrun.
  destruct (clusterStatus w) as [st|e].
  - mrun. destruct (userCurrent w) as [u|e].
    + mrun. destruct (haStatus w) as [ha|e]; [discriminate Hs|].
      injection Hs as <-. mrun. reflexivity.
    + injection Hs as <-. mrun. reflexivity.
  - injection Hs as <-. mrun. reflexivity.
Qed.

(** X6 (no engine): when the connection to the engine cannot be set up,
    whether a command was given or not, the process writes
    [Failed to connect to engine: ] and the error to the error stream and
    ends with status 1; it has printed nothing, asked the engine nothing,
    executed nothing, read no line and left the terminal alone. *)
Theorem connection_failure_is_fatal (E : Env) (w : World) (e : string) :
  connectError w = Some e ->
  exitStatus (run E w) = Some 1
  /\ stderr (trace (finalState (run E w))) =
     ("Failed to connect to engine: " ++ e ++ nl)%string
  /\ stdout (trace (finalState (run E w))) = ""
  /\ executed (trace (finalState (run E w))) = []
  /\ ~ In EvClusterStatus (trace (finalState (run E w)))
  /\ ~ In EvReadLine (trace (finalState (run E w)))
  /\ (forall ok, ~ In (EvMakeRaw ok) (trace (finalState (run E w))))
  /\ tty (finalState (run E w)) = termios w.
Proof.
  intro H. rewrite (main_no_connection E w e H).
  cbn [finalState exitStatus]. unfold after, initial. cbn [trace tty app].
  destruct (newSeesawIPC w); cbn [app stderr stdout executed];
    rewrite ?append_assoc, ?append_empty_r;
    repeat split; try reflexivity; notin.
Qed.

Lemma connection_failure_is_fatal_witness :
  exitStatus (run Demo.env Demo_noEngine) = Some 1
  /\ stderr (trace (finalState (run Demo.env Demo_noEngine))) =
     ("Failed to connect to engine: connection refused" ++ nl)%string.
Proof.
  destruct (connection_failure_is_fatal Demo.env Demo_noEngine "connection refused"
              eq_refl) as (H1 & H2 & _).
  split; [exact H1 | exact H2].
Defined.

(** X7 (no session): when the engine answers but the cluster status, the
    current user or the HA status cannot be had, the first of them that
    fails is reported on the error stream and the process ends with status
    1, before the signals are asked for and before the terminal is touched;
    the banner is on standard output only when the cluster status was had. *)
Theorem startup_failure_is_fatal (E : Env) (w : World) (msg : string) :
  command w = "" -> connectError w = None -> startupError w = Some msg ->
  exitStatus (run E w) = Some 1
  /\ stderr (trace (finalState (run E w))) = (msg ++ nl)%string
  /\ stdout (trace (finalState (run E w))) =
     match clusterStatus w with
     | Ok st => banner (Version st)
     | Err _ => ""
     end
  /\ (forall sigs, ~ In (EvNotify sigs) (trace (finalState (run E w))))
  /\ (forall ok, ~ In (EvMakeRaw ok) (trace (finalState (run E w))))
  /\ ~ In EvReadLine (trace (finalState (run E w)))
  /\ executed (trace (finalState (run E w))) = []
  /\ tty (finalState (run E w)) = termios w.
Proof.
  intros Hc Hn Hs. rewrite (main_startup_fails E w msg Hc Hn Hs).
  cbn [finalState exitStatus]. unfold after, initial. cbn [trace tty app].
  destruct (clusterStatus w); [destruct (userCurrent w)|];
    cbn [app stderr stdout executed];
    rewrite ?append_assoc, ?append_empty_r;
    repeat split; try reflexivity; notin.
Qed.

Lemma startup_failure_is_fatal_witness :
  exitStatus (run Demo.env Demo_noUser) = Some 1
  /\ stderr (trace (finalState (run Demo.env Demo_noUser))) =
     ("Failed to get current user: unknown userid 1000" ++ nl)%string
  /\ stdout (trace (finalState (run Demo.env Demo_noUser))) = banner 2.
Proof.
  destruct (startup_failure_is_fatal Demo.env Demo_noUser
              "Failed to get current user: unknown userid 1000"
              eq_refl eq_refl eq_refl) as (H1 & H2 & H3 & _).
  split; [exact H1|]. split; [exact H2 | exact H3].
Defined.

(** ** Sessions of plain lines *)

Lemma readLoop_typed (E : Env) (ls : list (string * Executed)) (e : string) (s : State) :
  Forall (fun p => snd p <> Quit) ls ->
  readLoop E (typed ls ++ [mkRead [] (ReadErr e)]) s =
  Ret tt (after s (loopEvents ls ++ [EvReadLine])).
Proof.
  revert s. induction ls as [|[l ex] rest IH]; intros s Hq.
  - reflexivity.
  - inversion Hq as [|p ps Hex Hrest]; subst. simpl in Hex.
    simpl typed. simpl app. simpl readLoop. unfold term_ReadLine. simpl forEach.
    mrun. cbn [ending]. simpl loopEvents.
    destruct (String.eqb (strings.TrimSpace l) "").
    + rewrite (IH _ Hrest), after_after. reflexivity.
    + unfold seesawCLI_Execute. mrun. destruct ex; mrun.
      * rewrite (IH _ Hrest), !after_after. reflexivity.
      * rewrite (IH _ Hrest), !after_after. reflexivity.
      * now destruct Hex.
Qed.

Lemma executed_loopEvents (ls : list (string * Executed)) :
  executed (loopEvents ls) = dispatchedLines ls.
Proof.
  unfold dispatchedLines. induction ls as [|[l ex] rest IH]; [reflexivity|].
  simpl. destruct (String.eqb (strings.TrimSpace l) ""); simpl.
  - exact IH.
  - destruct ex; simpl; now rewrite IH.
Qed.

Lemma stdout_loopEvents (ls : list (string * Executed)) :
  stdout (loopEvents ls) = failures ls.
Proof.
  induction ls as [|[l ex] rest IH]; [reflexivity|].
  simpl. destruct (String.eqb (strings.TrimSpace l) ""); simpl.
  - exact IH.
  - destruct ex; simpl; rewrite IH, ?append_assoc; reflexivity.
Qed.

Lemma stderr_loopEvents (ls : list (string * Executed)) : stderr (loopEvents ls) = "".
Proof.
  induction ls as [|[l ex] rest IH]; [reflexivity|].
  simpl. destruct (String.eqb (strings.TrimSpace l) ""); simpl.
  - exact IH.
  - destruct ex; simpl; exact IH.
Qed.

Lemma connectError_None (w : World) :
  connectError w = None -> newSeesawIPC w = None /\ dial w = None.
Proof. unfold connectError. destruct (newSeesawIPC w); [discriminate|]. auto. Qed.

(** X8 (the loop): in a session where lines are typed and nothing else
    happens, until the input ends, every line that is not blank is given to
    Execute once, trimmed, in the order typed, whether the commands before it
    failed or not; each failure is printed on standard output, nothing goes
    to the error stream, and the process ends with status 0, the terminal
    as it was at the start. *)
Theorem session_executes_each_line (E : Env) (w : World)
    (st : ClusterStatus) (u : string) (ha : Z)
    (ls : list (string * Executed)) (e : string) :
  command w = "" -> connectError w = None ->
  clusterStatus w = Ok st -> userCurrent w = Ok u -> haStatus w = Ok ha ->
  rawAtStart w = None ->
  reads w = typed ls ++ [mkRead [] (ReadErr e)] ->
  Forall (fun p => snd p <> Quit) ls ->
  exitStatus (run E w) = Some 0
  /\ executed (trace (finalState (run E w))) = dispatchedLines ls
  /\ stdout (trace (finalState (run E w))) =
     (banner (Version st) ++ (if (ha =? HAMaster E)%Z then "" else notMaster)
      ++ failures ls ++ nl)%string
  /\ stderr (trace (finalState (run E w))) = ""
  /\ tty (finalState (run E w)) = termios w.
Proof.
  intros Hc Hce Hs Hu Hh Hr Hreads Hq.
  destruct (connectError_None w Hce) as [Hn Hd].
  rewrite (main_interactive E w st u ha Hc Hn Hd Hs Hu Hh), Hr, Hreads.
  rewrite (bind_Ret _ _ _ _ _ (terminalInit_ok E _)).
  rewrite (bind_Ret _ _ _ _ _ (readLoop_typed E ls e _ Hq)).
  rewrite exit_eq. cbn [finalState exitStatus].
  unfold restoreSaved, after, beforeRaw. cbn [oldTermState trace tty].
  rewrite !executed_app, !stdout_app, !stderr_app.
  rewrite executed_loopEvents, stdout_loopEvents, stderr_loopEvents.
  destruct (ha =? HAMaster E); cbn [executed stdout stderr app];
    rewrite ?app_nil_r, ?append_empty_r, ?append_assoc; repeat split; reflexivity.
Qed.

Lemma session_executes_each_line_witness :
  executed (trace (finalState
     (run Demo.env (Demo.world "" (typed Demo_lines ++ [mkRead [] (ReadErr "EOF")])))))
  = ["show status"; "bogus"; "show"].
Proof.
  destruct (session_executes_each_line Demo.env
              (Demo.world "" (typed Demo_lines ++ [mkRead [] (ReadErr "EOF")]))
              (mkClusterStatus 2 "lab") "admin" 4 Demo_lines "EOF"
              eq_refl eq_refl eq_refl eq_refl eq_refl eq_refl eq_refl)
    as (_ & H & _).
  - repeat constructor; simpl; discriminate.
  - exact H.
Defined.

(** ** What a session keeps

    What holds when raw mode is about to be entered and is kept by each
    step of the session holds whenever the session waits, returns or is
    ended; what the steps that exit establish holds at the exit. *)

Section Session.

Variable E : Env.
Variable G : State -> Prop.
Variable X : Z -> State -> Prop.

Hypothesis G_event : forall e s, loopEvent e -> G s -> G (after s [e]).
Hypothesis G_restore :
  forall c s, oldTermState s = Some c -> G s -> G (finalState (terminal_Restore c s)).
Hypothesis G_resume : forall s, G s -> G (finalState (go GoResume s)).
Hypothesis G_woken : forall s, G s -> G (finalState (woken s)).
Hypothesis G_raw : forall s, G s -> G (finalState (terminal_MakeRaw E None s)).
Hypothesis G_newTerminal :
  forall s, G s -> G (finalState (terminal_NewTerminal (prompt s) s)).
Hypothesis X_exit : forall s, G s -> X 0 (after s [EvStdout nl]).
Hypothesis X_noRaw :
  forall e s, G s ->
    X 1 (after (finalState (terminal_MakeRaw E (Some e) s))
               ([EvStderr ("Failed to get raw terminal: " ++ e)] ++ [EvStderr nl])).

Lemma holds_bind {A B} (m : M A) (k : A -> M B) :
  holds G X m -> (forall a, holds G X (k a)) -> holds G X (bind m k).
Proof.
  intros Hm Hk s Hs. specialize (Hm s Hs). unfold bind.
  destruct (m s) as [a s'| | | |]; try exact Hm. apply Hk, Hm.
Qed.

Lemma holds_ret {A} (a : A) : holds G X (ret a).
Proof. intros s Hs. exact Hs. Qed.

Lemma holds_emit (e : Event) : loopEvent e -> holds G X (emit e).
Proof. intros He s Hs. now apply G_event. Qed.

Lemma G_events (evs : list Event) (s : State) :
  (forall e, In e evs -> loopEvent e) -> G s -> G (after s evs).
Proof.
  revert s. induction evs as [|e evs IH]; intros s He Hs.
  - now rewrite after_nil.
  - change (e :: evs) with ([e] ++ evs). rewrite <- after_after. apply IH.
    + intros x Hx. apply He. now right.
    + apply G_event; [apply He; now left | exact Hs].
Qed.

Lemma G_restoreSaved (s : State) : G s -> G (restoreSaved s).
Proof.
  intros Hs. destruct (oldTermState s) as [c|] eqn:Ho.
  - rewrite (restoreSaved_Some s c Ho). now apply G_restore.
  - now rewrite (restoreSaved_None s Ho).
Qed.

Lemma holds_exit {A} : holds G X (@exit A).
Proof. intros s Hs. rewrite exit_eq. apply X_exit, G_restoreSaved, Hs. Qed.

Lemma holds_terminalInit (answer : error) : holds G X (terminalInit E answer).
Proof.
  intros s Hs. rewrite terminalInit_eq. destruct answer as [e|].
  - now apply X_noRaw.
  - apply (G_newTerminal (finalState (terminal_MakeRaw E None s))), G_raw, Hs.
Qed.

Lemma holds_resume (answer : error) : holds G X (resume E answer).
Proof.
  unfold resume, fmt_Print.
  apply holds_bind; [apply holds_emit; exact Logic.I|]. intros _.
  apply holds_bind; [apply holds_emit; exact Logic.I|]. intros _.
  apply holds_terminalInit.
Qed.

Lemma holds_autoComplete (line : string) (pos key : Z) :
  holds G X (autoComplete E line pos key).
Proof.
  intros s Hs.
  destruct (autoComplete_cases E line pos key s)
    as [[_ Hc]|[[_ Hc]|[[_ Hc]|[[_ Hc]|[[_ Hc]|[[_ Hc]|[(_ & _ & l0 & evs & Hc & Hev)
       |[(_ & _ & Hc)|(_ & _ & _ & _ & _ & _ & _ & Hc)]]]]]]]];
    rewrite Hc; simpl; try exact Hs.
  - apply X_exit, G_restoreSaved, Hs.
  - apply G_event; [exact Logic.I | exact Hs].
  - apply G_event; [exact Logic.I|].
    apply (G_resume (restoreSaved s)), G_restoreSaved, Hs.
  - apply G_events; [|exact Hs].
    intros e He. destruct (Hev e He) as [[q ->]|[b ->]]; exact Logic.I.
Qed.

Lemma holds_deliver (sig : Signal) : holds G X (deliver sig).
Proof.
  intros s Hs. unfold deliver. rewrite bind_get.
  destruct (existsb (Signal_eqb sig) (notified s)).
  - destruct (listening s); [now apply holds_exit | exact Hs].
  - destruct sig; exact Hs.
Qed.

Lemma holds_async (a : Async) : holds G X (async E a).
Proof.
  destruct a as [line pos key|sig|answer]; simpl.
  - apply holds_bind; [apply holds_autoComplete | intros _; apply holds_ret].
  - apply holds_deliver.
  - intros s Hs. rewrite bind_get. destruct (resumes s); [exact Hs|].
    apply (holds_bind woken); [|intros _; apply holds_resume|exact Hs].
    intros s' Hs'. now apply G_woken.
Qed.

Lemma holds_forEach {A} (l : list A) (body : A -> M unit) :
  (forall a, holds G X (body a)) -> holds G X (forEach l body).
Proof.
  intro H. induction l as [|a l IH]; [apply holds_ret|].
  simpl. apply holds_bind; [apply H | intros _; exact IH].
Qed.

Lemma holds_Execute (line : string) (ex : Executed) :
  holds G X (seesawCLI_Execute line ex).
Proof.
  unfold seesawCLI_Execute. apply holds_bind; [apply holds_emit; exact Logic.I|].
  intros _. destruct ex; [apply holds_ret | apply holds_ret | apply holds_exit].
Qed.

Lemma holds_readLoop (rs : list Read) : holds G X (readLoop E rs).
Proof.
  induction rs as [|r rest IH]; simpl readLoop.
  - apply holds_bind; [apply holds_emit; exact Logic.I|]. intros _ s Hs. exact Hs.
  - apply holds_bind.
    + unfold term_ReadLine. apply holds_bind; [apply holds_emit; exact Logic.I|].
      intros _. apply holds_bind; [apply holds_forEach, holds_async|].
      intros _. apply holds_ret.
    + intros [cmdline ex|e|].
      * destruct (String.eqb (strings.TrimSpace cmdline) ""); [exact IH|].
        apply holds_bind; [apply holds_Execute|]. intros err.
        apply holds_bind; [|intros _; exact IH].
        destruct err; [apply holds_emit; exact Logic.I | apply holds_ret].
      * apply holds_ret.
      * intros s Hs. exact Hs.
Qed.

(** What the session meets, from raw mode to the exit. *)
Lemma holds_session (answer : error) (rs : list Read) :
  holds G X (session E answer rs).
Proof.
  unfold session. apply holds_bind; [apply holds_terminalInit|]. intros _.
  apply holds_bind; [apply holds_readLoop|]. intros _. apply holds_exit.
Qed.

End Session.

(** ** Every run, case by case *)

Lemma run_cases (w : World) :
  (exists e, connectError w = Some e)
  \/ (connectError w = None /\ command w <> "")
  \/ (connectError w = None /\ command w = "" /\ exists msg, startupError w = Some msg)
  \/ (connectError w = None /\ command w = ""
      /\ exists st u ha,
           clusterStatus w = Ok st /\ userCurrent w = Ok u /\ haStatus w = Ok ha).
Proof.
  destruct (connectError w) as [e|]; [left; now exists e|]. right.
  destruct (string_dec (command w) "") as [Hc|Hc]; [right|left; now split].
  unfold startupError.
  destruct (clusterStatus w) as [st|e]; [|left; repeat split; auto; eexists; reflexivity].
  destruct (userCurrent w) as [u|e]; [|left; repeat split; auto; eexists; reflexivity].
  destruct (haStatus w) as [ha|e]; [|left; repeat split; auto; eexists; reflexivity].
  right. repeat split; auto. now exists st, u, ha.
Qed.

Lemma run_session (E : Env) (w : World) (st : ClusterStatus) (u : string) (ha : Z) :
  command w = "" -> connectError w = None ->
  clusterStatus w = Ok st -> userCurrent w = Ok u -> haStatus w = Ok ha ->
  run E w = session E (rawAtStart w) (reads w) (beforeRaw E w st u ha).
Proof.
  intros Hc Hce Hs Hu Hh. destruct (connectError_None w Hce) as [Hn Hd].
  exact (main_interactive E w st u ha Hc Hn Hd Hs Hu Hh).
Qed.

(** ** The error stream and the exit status *)






(** ** The prompt *)

Lemma promptIs_snoc (p : string) (s s' : State) (e : Event) :
  prompt s' = prompt s -> term s' = term s -> trace s' = trace s ++ [e] ->
  (forall q, e = EvNewTerminal q -> q = p) ->
  promptIs p s -> promptIs p s'.
Proof.
  intros Hp Ht Htr He (H1 & H2 & H3). unfold promptIs. rewrite Hp, Ht, Htr.
  split; [exact H1|]. split; [exact H2|].
  intros q Hq. apply in_snoc in Hq. destruct Hq as [Hq|Hq]; [now apply H3|].
  apply He. now symmetry.
Qed.

Lemma session_promptIs (E : Env) (p : string) (answer : error) (rs : list Read)
    (s : State) :
  promptIs p s -> promptIs p (finalState (session E answer rs s)).
Proof.
  intro Hs.
  assert (Hm : meets (promptIs p) (fun _ => promptIs p) (session E answer rs s)).
  { apply holds_session; try exact Hs; clear.
    - intros e s He. apply (promptIs_snoc p s _ e); try reflexivity.
      intros q ->. destruct He.
    - intros c s _. apply (promptIs_snoc p s _ (EvRestore c)); try reflexivity.
      intros q H; discriminate H.
    - intros s. apply (promptIs_snoc p s _ (EvGo GoResume)); try reflexivity.
      intros q H; discriminate H.
    - intros s H. exact H.
    - intros s. apply (promptIs_snoc p s _ (EvMakeRaw true)); try reflexivity.
      intros q H; discriminate H.
    - intros s (H1 & H2 & H3). unfold promptIs. simpl. split; [exact H1|].
      split.
      + intros q Hq. inversion Hq. now subst.
      + intros q Hq. apply in_snoc in Hq. destruct Hq as [Hq|Hq]; [now apply H3|].
        inversion Hq. now subst.
    - intros s. apply (promptIs_snoc p s _ (EvStdout nl)); try reflexivity.
      intros q H; discriminate H.
    - intros e s (H1 & H2 & H3). unfold promptIs. simpl. split; [exact H1|].
      split; [exact H2|]. intros q Hq.
      apply in_app_or in Hq. destruct Hq as [Hq|Hq].
      + apply in_snoc in Hq. destruct Hq as [Hq|Hq]; [now apply H3 | discriminate Hq].
      + simpl in Hq. intuition discriminate. }
  destruct (session E answer rs s); exact Hm.
Qed.

(** X10 (prompt): in an interactive session that has started, the prompt is
    the user name, an at sign, the site and [> ] for the whole session:
    whatever is typed, however often the session is suspended and resumed
    and however it ends, the prompt variable holds that text and every line
    editor is built with it. *)
Theorem prompt_never_changes (E : Env) (w : World)
    (st : ClusterStatus) (u : string) (ha : Z) :
  command w = "" -> connectError w = None ->
  clusterStatus w = Ok st -> userCurrent w = Ok u -> haStatus w = Ok ha ->
  prompt (finalState (run E w)) = (u ++ "@" ++ Site st ++ "> ")%string
  /\ (forall q, term (finalState (run E w)) = Some q ->
        q = (u ++ "@" ++ Site st ++ "> ")%string)
  /\ (forall q, In (EvNewTerminal q) (trace (finalState (run E w))) ->
        q = (u ++ "@" ++ Site st ++ "> ")%string).
Proof.
  intros Hc Hce Hs Hu Hh. rewrite (run_session E w st u ha Hc Hce Hs Hu Hh).
  apply (session_promptIs E (u ++ "@" ++ Site st ++ "> ")).
  unfold promptIs, beforeRaw. cbn [prompt term trace].
  split; [reflexivity|]. split; [discriminate|].
  intros q Hq. destruct (ha =? HAMaster E); simpl in Hq; intuition discriminate.
Qed.

Lemma prompt_never_changes_witness :
  prompt (finalState (run Demo.env (Demo.world "" Demo_serial))) = "admin@lab> ".
Proof.
  destruct (prompt_never_changes Demo.env (Demo.world "" Demo_serial)
              (mkClusterStatus 2 "lab") "admin" 4
              eq_refl eq_refl eq_refl eq_refl eq_refl) as (H & _).
  exact H.
Defined.

(** ** Returning from [main] *)

Lemma session_never_returns (E : Env) (answer : error) (rs : list Read) (s : State)
    (a : unit) (s' : State) :
  session E answer rs s <> Ret a s'.
Proof.
  unfold session, bind.
  destruct (terminalInit E answer s); try discriminate.
  destruct (readLoop E rs s0); try discriminate.
  rewrite exit_eq. discriminate.
Qed.

Lemma session_never_closes (E : Env) (answer : error) (rs : list Read) (s : State) :
  ~ In EvClose (trace s) ->
  ~ In EvClose (trace (finalState (session E answer rs s))).
Proof.
  intro Hs.
  assert (Hm : meets (fun s => ~ In EvClose (trace s))
                 (fun _ s => ~ In EvClose (trace s)) (session E answer rs s)).
  { assert (Hsn : forall (s s' : State) (e : Event),
               trace s' = trace s ++ [e] -> e <> EvClose ->
               ~ In EvClose (trace s) -> ~ In EvClose (trace s')).
    { intros s0 s' e Ht He H0 Hin. rewrite Ht in Hin. apply in_snoc in Hin.
      destruct Hin as [Hin|Hin]; [now apply H0 | now apply He]. }
    apply holds_session; try exact Hs; clear Hs.
    - intros e s0 He. apply (Hsn s0 (after s0 [e]) e eq_refl). intros ->. exact He.
    - intros c s0 _.
      apply (Hsn s0 (finalState (terminal_Restore c s0)) (EvRestore c) eq_refl).
      discriminate.
    - intros s0.
      apply (Hsn s0 (finalState (go GoResume s0)) (EvGo GoResume) eq_refl).
      discriminate.
    - intros s0 H. exact H.
    - intros s0.
      apply (Hsn s0 (finalState (terminal_MakeRaw E None s0)) (EvMakeRaw true) eq_refl).
      discriminate.
    - intros s0.
      apply (Hsn s0 (finalState (terminal_NewTerminal (prompt s0) s0))
               (EvNewTerminal (prompt s0)) eq_refl).
      discriminate.
    - intros s0. apply (Hsn s0 (after s0 [EvStdout nl]) (EvStdout nl) eq_refl).
      discriminate.
    - intros e s0 H0 Hin. simpl in Hin.
      apply in_app_or in Hin. destruct Hin as [Hin|Hin].
      + apply in_snoc in Hin. destruct Hin as [Hin|Hin]; [now apply H0 | discriminate Hin].
      + simpl in Hin. intuition discriminate. }
  destruct (session E answer rs s); exact Hm.
Qed.

(** X11 (Close): [main] returns, and the deferred Close of the connection
    runs, in one case only: a command was given, the engine was reached and
    Execute succeeded.  An interactive session never returns from [main] and
    never closes the connection, and neither does any run that ends in
    [exit] or [fatalf]. *)
Theorem close_only_after_one_shot_success (E : Env) (w : World) :
  (In EvClose (trace (finalState (run E w)))
   <-> connectError w = None /\ command w <> "" /\ oneShot w = Done)
  /\ ((exists s, run E w = Ret tt s)
      <-> connectError w = None /\ command w <> "" /\ oneShot w = Done).
Proof.
  destruct (run_cases w)
    as [[e He]|[[Hce Hc]|[(Hce & Hc & msg & Hm)|(Hce & Hc & st & u & ha & Hs & Hu & Hh)]]].
  - rewrite (main_no_connection E w e He). split; split.
    + unfold after, initial. cbn [finalState trace app]. intro Hin.
      destruct (newSeesawIPC w); simpl in Hin; exfalso; intuition discriminate.
    + intros (H & _). rewrite H in He. discriminate He.
    + intros [s H]. discriminate H.
    + intros (H & _). rewrite H in He. discriminate He.
  - destruct (connectError_None w Hce) as [Hn Hd].
    rewrite (main_one_shot E w Hc Hn Hd). destruct (oneShot w); split; split;
      try (intros (_ & _ & H); discriminate H);
      try (intros [s H]; discriminate H);
      try (intros _; repeat split; assumption);
      try (intros _; eexists; reflexivity);
      try (simpl; intuition discriminate).
  - rewrite (main_startup_fails E w msg Hc Hce Hm). split; split.
    + unfold after, initial. cbn [finalState trace app]. intro Hin.
      destruct (clusterStatus w); [destruct (userCurrent w)|]; simpl in Hin;
        exfalso; intuition discriminate.
    + intros (_ & H & _). contradiction.
    + intros [s H]. discriminate H.
    + intros (_ & H & _). contradiction.
  - rewrite (run_session E w st u ha Hc Hce Hs Hu Hh). split; split.
    + intro Hin. exfalso. revert Hin. apply session_never_closes.
      unfold beforeRaw. cbn [trace]. destruct (ha =? HAMaster E); notin.
    + intros (_ & H & _). contradiction.
    + intros [s H]. exfalso. exact (session_never_returns E _ _ _ tt s H).
    + intros (_ & H & _). contradiction.
Qed.
